(** * DataGrid core: virtualizer, column layout and grid store

    A shallow embedding of [src/core/virtual.ts], [src/core/store.ts],
    the range computation of [src/core/useVirtualizer.ts], the [commit]
    handler of [src/components/DataGrid/GridCell.tsx], the handlers of
    [ResizeHandle.tsx] and [GridHeaderCell.tsx] that call the store, the
    row rendering of [GridBody.tsx] and [GridRow.tsx], and the sort and
    keyboard handlers of the stand-alone [DataGrid.tsx], followed by the
    properties established about them.

    Modelling conventions.
    - Pixel quantities and indices are JavaScript numbers in the source; they
      are integers ([Z]) here.  [Math.floor (a / b)] is [Z.div] (which rounds
      towards minus infinity) and [Math.ceil (a / b)] is its mirror image.
    - A plain object used as a dictionary ([Record<string, X>]) and a [Map]
      are finite maps ([gmap]); reading a missing key yields [None], which
      stands for JavaScript's [undefined].
    - An accessor thunk ([getScrollOffset], [getContainerSize]) is modelled
      by the value it returns.
    - A store transition is the function from the previous snapshot to the
      next one, that is, the result of the shallow merge done by [setState]. *)

From Stdlib Require Import ZArith List Lia Sorted.
From stdpp Require Import base gmap strings list.

Open Scope Z_scope.

(** ** Row virtualizer ([core/virtual.ts], class [Virtualizer]) *)

Record VirtualItem := mkVirtualItem {
  vi_index : Z;
  vi_start : Z;
  vi_size : Z;
  vi_end : Z
}.

Record VirtualRange := mkVirtualRange {
  startIndex : Z;
  endIndex : Z;
  items : list VirtualItem;
  totalSize : Z
}.

Record VirtualizerOptions := mkVirtualizerOptions {
  count : Z;
  getScrollOffset : Z;
  getContainerSize : Z;
  estimateSize : Z -> Z;
  overscan : option Z
}.

(** [Math.floor (a / b)] and [Math.ceil (a / b)] for [b <> 0]. *)
Definition floor_div (a b : Z) : Z := a / b.
Definition ceil_div (a b : Z) : Z := - ((- a) / b).

(** The body of [for (let i = lo; i <= hi; i++) items.push (...)]. *)
Definition make_items (itemSize lo hi : Z) : list VirtualItem :=
  map (fun i => {| vi_index := i;
                   vi_start := i * itemSize;
                   vi_size := itemSize;
                   vi_end := (i + 1) * itemSize |})
      (seqZ lo (hi - lo + 1)).

Definition calculateRange (o : VirtualizerOptions) : VirtualRange :=
  let overscan := default 5 (overscan o) in
  let scrollOffset := getScrollOffset o in
  let containerSize := getContainerSize o in
  if count o =? 0 then
    {| startIndex := 0; endIndex := 0; items := []; totalSize := 0 |}
  else
    let itemSize := estimateSize o 0 in
    let totalSize := count o * itemSize in
    let startIndex := Z.max 0 (floor_div scrollOffset itemSize) in
    let endIndex :=
      Z.min (count o - 1) (ceil_div (scrollOffset + containerSize) itemSize) in
    let renderStartIndex := Z.max 0 (startIndex - overscan) in
    let renderEndIndex := Z.min (count o - 1) (endIndex + overscan) in
    {| startIndex := renderStartIndex;
       endIndex := renderEndIndex;
       items := make_items itemSize renderStartIndex renderEndIndex;
       totalSize := totalSize |}.

(** The range computed by [measure] in the hook [core/useVirtualizer.ts],
    from the scroll element's [scrollTop] and [clientHeight].  Here both raw
    indices are clamped on both sides before the overscan is applied. *)
Definition measure (count scrollTop containerHeight itemSize overscan : Z)
  : VirtualRange :=
  let totalSize := count * itemSize in
  let startIndex := floor_div scrollTop itemSize in
  let startIndex := Z.max 0 (Z.min (count - 1) startIndex) in
  let endIndex := ceil_div (scrollTop + containerHeight) itemSize in
  let endIndex := Z.max 0 (Z.min (count - 1) endIndex) in
  let startIndex := Z.max 0 (startIndex - overscan) in
  let endIndex := Z.min (count - 1) (endIndex + overscan) in
  {| startIndex := startIndex;
     endIndex := endIndex;
     items := make_items itemSize startIndex endIndex;
     totalSize := totalSize |}.

(** The property of a result asked of the row virtualizer: ordered indices
    within [0, count - 1] and items placed at multiples of the item size. *)
Definition range_ok (count itemSize : Z) (r : VirtualRange) : Prop :=
  0 <= startIndex r /\ startIndex r <= endIndex r /\ endIndex r <= count - 1 /\
  Forall (fun it => vi_start it = vi_index it * itemSize /\
                    vi_end it = vi_start it + itemSize) (items r).

Definition fixed_options (count scrollOffset containerSize itemSize : Z)
    (overscan : option Z) : VirtualizerOptions :=
  {| count := count;
     getScrollOffset := scrollOffset;
     getContainerSize := containerSize;
     estimateSize := fun _ => itemSize;
     overscan := overscan |}.

(** ** Column layout ([core/virtual.ts], class [ColumnVirtualizer]) *)

(** [isPinned: 'left' | 'right' | false]. *)
Inductive PinSide := PinLeft | PinRight | PinNone.

#[global] Instance PinSide_eq_dec : EqDecision PinSide.
Proof. solve_decision. Defined.

Record VirtualColumn := mkVirtualColumn {
  vc_index : Z;
  vc_id : string;
  vc_start : Z;
  vc_size : Z;
  vc_end : Z;
  vc_isPinned : PinSide;
  vc_stickyOffset : Z
}.

Record PinnedColumns := mkPinnedColumns {
  pin_left : list string;
  pin_right : list string
}.

Record ColumnVirtualizerOptions := mkColumnVirtualizerOptions {
  opt_columnOrder : list string;
  opt_columnWidths : gmap string Z;
  opt_columnVisibility : option (gmap string bool);
  opt_pinnedColumns : PinnedColumns;
  opt_scrollLeft : Z;
  opt_viewportWidth : Z;
  opt_overscan : option Z
}.

Record ColumnLayout := mkColumnLayout {
  virtualColumns : list VirtualColumn;
  totalWidth : Z
}.

(** [columnVisibility ? columnVisibility[id] !== false : true]. *)
Definition is_visible (vis : option (gmap string bool)) (id : string) : bool :=
  match vis with
  | Some m => bool_decide (m !! id ≠ Some false)
  | None => true
  end.

(** [columnWidths[id] || 100]: a missing width and a width of [0] are both
    falsy. *)
Definition width_of (widths : gmap string Z) (id : string) : Z :=
  match widths !! id with
  | Some w => if w =? 0 then 100 else w
  | None => 100
  end.

(** [array.includes (id)]. *)
Definition includes (l : list string) (id : string) : bool :=
  bool_decide (id ∈ l).

Definition leftIds (o : ColumnVirtualizerOptions) : list string :=
  List.filter (is_visible (opt_columnVisibility o))
              (pin_left (opt_pinnedColumns o)).

Definition rightIds (o : ColumnVirtualizerOptions) : list string :=
  List.filter (is_visible (opt_columnVisibility o))
              (pin_right (opt_pinnedColumns o)).

Definition scrollableIds (o : ColumnVirtualizerOptions) : list string :=
  List.filter
    (fun id => negb (includes (pin_left (opt_pinnedColumns o)) id)
               && negb (includes (pin_right (opt_pinnedColumns o)) id)
               && is_visible (opt_columnVisibility o) id)
    (opt_columnOrder o).

Definition visualOrder (o : ColumnVirtualizerOptions) : list string :=
  leftIds o ++ scrollableIds o ++ rightIds o.

(** The loop [for (let i = rightIds.length - 1; i >= 0; i--)] filling
    [rightStickyOffsets]: it walks the right-pinned ids from the last to
    the first, so it is a left fold over the reversed list. *)
Definition rightStickyOffsets (widths : gmap string Z) (rightIds : list string)
  : gmap string Z :=
  fst (foldl (fun '(m, rightAccumulator) id =>
                (<[id := rightAccumulator]> m,
                 rightAccumulator + width_of widths id))
             (∅, 0) (reverse rightIds)).

(** The callback of [visualOrder.forEach], run on the ids that remain;
    [index], [currentOffset] and [leftStickyAccumulator] are the loop's
    mutable variables.  The result is what is pushed on [virtualColumns]
    from here on, and the final [currentOffset]. *)
Fixpoint layout_walk (widths : gmap string Z) (leftIds rightIds : list string)
    (offsets : gmap string Z) (visibleStart visibleEnd : Z)
    (ids : list string) (index currentOffset leftStickyAccumulator : Z)
  : list VirtualColumn * Z :=
  match ids with
  | [] => ([], currentOffset)
  | id :: rest =>
      let width := width_of widths id in
      let start := currentOffset in
      let end_ := start + width in
      let isPinnedLeft := includes leftIds id in
      let isPinnedRight := includes rightIds id in
      let '(shouldRender, stickyOffset, leftAcc') :=
        if isPinnedLeft then
          (true, leftStickyAccumulator, leftStickyAccumulator + width)
        else if isPinnedRight then
          (true, default 0 (offsets !! id), leftStickyAccumulator)
        else
          ((visibleStart <=? end_) && (start <=? visibleEnd), 0,
           leftStickyAccumulator) in
      let pushed :=
        if shouldRender then
          [ {| vc_index := index;
               vc_id := id;
               vc_start := start;
               vc_size := width;
               vc_end := end_;
               vc_isPinned := if isPinnedLeft then PinLeft
                              else if isPinnedRight then PinRight
                              else PinNone;
               vc_stickyOffset := stickyOffset |} ]
        else [] in
      let '(cols, total) :=
        layout_walk widths leftIds rightIds offsets visibleStart visibleEnd
                    rest (index + 1) (currentOffset + width) leftAcc' in
      (pushed ++ cols, total)
  end.

Definition calculateLayout (o : ColumnVirtualizerOptions) : ColumnLayout :=
  let overscan := default 200 (opt_overscan o) in
  let widths := opt_columnWidths o in
  let offsets := rightStickyOffsets widths (rightIds o) in
  let visibleStart := opt_scrollLeft o - overscan in
  let visibleEnd := opt_scrollLeft o + opt_viewportWidth o + overscan in
  let '(cols, total) :=
    layout_walk widths (leftIds o) (rightIds o) offsets visibleStart visibleEnd
                (visualOrder o) 0 0 0 in
  {| virtualColumns := cols; totalWidth := total |}.

(** ** Grid state ([core/types.ts]) *)

(** The primitive values a cell can hold.  Numbers are integers in this
    model. *)
Inductive JsVal :=
  | VUndefined
  | VNull
  | VBool (b : bool)
  | VNum (n : Z)
  | VStr (s : string).

#[global] Instance JsVal_eq_dec : EqDecision JsVal.
Proof. solve_decision. Defined.

(** [a === b] on primitives. *)
Definition strict_eq (a b : JsVal) : bool := bool_decide (a = b).

(** [a == null], true of [null] and [undefined] only. *)
Definition is_nullish (a : JsVal) : bool :=
  match a with
  | VUndefined | VNull => true
  | _ => false
  end.

(** [RowId = string | number]. *)
Inductive RowId :=
  | RStr (s : string)
  | RNum (n : Z).

#[global] Instance RowId_eq_dec : EqDecision RowId.
Proof. solve_decision. Defined.

#[global] Instance RowId_countable : Countable RowId.
Proof.
  refine (inj_countable'
            (fun r => match r with RStr s => inl s | RNum n => inr n end)
            (fun x => match x with inl s => RStr s | inr n => RNum n end) _).
  intros [s | n]; reflexivity.
Defined.

(** A row is an application record, read through [row[colId]]. *)
Abbreviation Row := (gmap string JsVal).

(** [(row as Record<string, unknown>)[colId]]: a missing property reads as
    [undefined]. *)
Definition get_field (row : Row) (colId : string) : JsVal :=
  default VUndefined (row !! colId).

Inductive Direction := Asc | Desc.

#[global] Instance Direction_eq_dec : EqDecision Direction.
Proof. solve_decision. Defined.

Record SortDescriptor := mkSortDescriptor {
  sd_columnId : string;
  sd_direction : Direction
}.

Record EditingState := mkEditingState {
  ed_rowId : RowId;
  ed_colId : string;
  ed_value : JsVal;
  ed_originalValue : JsVal;
  ed_isSaving : bool;
  ed_error : option string
}.

Record CellPosition := mkCellPosition {
  cp_rowId : RowId;
  cp_colId : string
}.

Record ColumnDef := mkColumnDef {
  cd_id : string;
  cd_title : string;
  cd_width : Z;
  cd_pinned : PinSide
}.

Record GridState := mkGridState {
  rowMap : gmap RowId Row;
  rowOrder : list RowId;
  columns : list ColumnDef;
  columnWidths : gmap string Z;
  columnOrder : list string;
  pinnedColumns : PinnedColumns;
  columnVisibility : gmap string bool;
  selectedRows : gset RowId;
  focusedCell : option CellPosition;
  editingCell : option EditingState;
  sort : list SortDescriptor;
  scrollTop : Z;
  scrollLeft : Z
}.

(** Shallow merges [{ ...prev, field: v }] of one or two fields. *)
Definition with_rowMap (m : gmap RowId Row) (s : GridState) : GridState :=
  mkGridState m (rowOrder s) (columns s) (columnWidths s) (columnOrder s)
    (pinnedColumns s) (columnVisibility s) (selectedRows s) (focusedCell s)
    (editingCell s) (sort s) (scrollTop s) (scrollLeft s).

Definition with_rowOrder (l : list RowId) (s : GridState) : GridState :=
  mkGridState (rowMap s) l (columns s) (columnWidths s) (columnOrder s)
    (pinnedColumns s) (columnVisibility s) (selectedRows s) (focusedCell s)
    (editingCell s) (sort s) (scrollTop s) (scrollLeft s).

Definition with_columnVisibility (v : gmap string bool) (s : GridState)
  : GridState :=
  mkGridState (rowMap s) (rowOrder s) (columns s) (columnWidths s)
    (columnOrder s) (pinnedColumns s) v (selectedRows s) (focusedCell s)
    (editingCell s) (sort s) (scrollTop s) (scrollLeft s).

Definition with_editingCell (e : option EditingState) (s : GridState)
  : GridState :=
  mkGridState (rowMap s) (rowOrder s) (columns s) (columnWidths s)
    (columnOrder s) (pinnedColumns s) (columnVisibility s) (selectedRows s)
    (focusedCell s) e (sort s) (scrollTop s) (scrollLeft s).

Definition with_sort (d : list SortDescriptor) (s : GridState) : GridState :=
  mkGridState (rowMap s) (rowOrder s) (columns s) (columnWidths s)
    (columnOrder s) (pinnedColumns s) (columnVisibility s) (selectedRows s)
    (focusedCell s) (editingCell s) d (scrollTop s) (scrollLeft s).

(** The state built by [new GridStore ({ columns })]: the column maps are
    filled from the definitions, everything else is empty. *)
Definition initialState (cols : list ColumnDef) : GridState :=
  {| rowMap := ∅;
     rowOrder := [];
     columns := cols;
     columnWidths :=
       foldl (fun m col => <[cd_id col := cd_width col]> m) ∅ cols;
     columnOrder := map cd_id cols;
     pinnedColumns :=
       {| pin_left :=
            map cd_id
                (List.filter (fun c => bool_decide (cd_pinned c = PinLeft)) cols);
          pin_right :=
            map cd_id
                (List.filter (fun c => bool_decide (cd_pinned c = PinRight)) cols) |};
     columnVisibility := foldl (fun m col => <[cd_id col := true]> m) ∅ cols;
     selectedRows := ∅;
     focusedCell := None;
     editingCell := None;
     sort := [];
     scrollTop := 0;
     scrollLeft := 0 |}.

(** ** Sorting ([sortRows], [toggleSort], [setData]) *)

(** [Array.prototype.sort (compare)].  The language asks for a stable sort
    and leaves the order open when [compare] is not a consistent ordering;
    a stable insertion sort stands for it here: an element moves behind a
    later one only when [compare] returns a positive number for the pair.
    The properties below rely on the result being a rearrangement of the
    input, not on the sorting method. *)
Fixpoint sort_insert {A} (compare : A -> A -> Z) (x : A) (l : list A) : list A :=
  match l with
  | [] => [x]
  | y :: l' =>
      if 0 <? compare x y then y :: sort_insert compare x l' else x :: l
  end.

Definition array_sort {A} (compare : A -> A -> Z) (l : list A) : list A :=
  foldr (sort_insert compare) [] l.

Section Sorting.

(** The language's relational comparison [a < b] of two values that are
    neither [null] nor [undefined]; the comparator uses it as a primitive,
    and so does the model. *)
Variable js_lt : JsVal -> JsVal -> bool.

(** [a > b]. *)
Definition js_gt (a b : JsVal) : bool := js_lt b a.

(** The [for (const s of sort)] loop of the comparator, on two rows that
    both exist. *)
Fixpoint compare_by (sort : list SortDescriptor) (rowA rowB : Row) : Z :=
  match sort with
  | [] => 0
  | s :: rest =>
      let valA := get_field rowA (sd_columnId s) in
      let valB := get_field rowB (sd_columnId s) in
      if strict_eq valA valB then compare_by rest rowA rowB
      else
        let direction :=
          match sd_direction s with Asc => 1 | Desc => -1 end in
        if is_nullish valA then 1 * direction
        else if is_nullish valB then -1 * direction
        else if js_lt valA valB then -1 * direction
        else if js_gt valA valB then 1 * direction
        else compare_by rest rowA rowB
  end.

(** The comparator passed to [sort] in [sortRows]. *)
Definition compareRows (rowMap : gmap RowId Row) (sort : list SortDescriptor)
    (aId bId : RowId) : Z :=
  match rowMap !! aId, rowMap !! bId with
  | Some rowA, Some rowB => compare_by sort rowA rowB
  | _, _ => 0
  end.

Definition sortRows (state : GridState) : list RowId :=
  if (length (sort state) =? 0)%nat then rowOrder state
  else array_sort (compareRows (rowMap state) (sort state)) (rowOrder state).

Definition toggleSort (columnId : string) (multi : bool) (prev : GridState)
  : GridState :=
  let existingSort :=
    List.find (fun s => bool_decide (sd_columnId s = columnId)) (sort prev) in
  let newSort :=
    if negb multi then
      match existingSort with
      | Some e =>
          match sd_direction e with
          | Asc => [ {| sd_columnId := columnId; sd_direction := Desc |} ]
          | Desc => []
          end
      | None => [ {| sd_columnId := columnId; sd_direction := Asc |} ]
      end
    else
      match existingSort with
      | Some e =>
          match sd_direction e with
          | Asc =>
              map (fun s => if bool_decide (sd_columnId s = columnId)
                            then {| sd_columnId := sd_columnId s;
                                    sd_direction := Desc |}
                            else s)
                  (sort prev)
          | Desc =>
              List.filter
                (fun s => negb (bool_decide (sd_columnId s = columnId)))
                (sort prev)
          end
      | None =>
          sort prev ++ [ {| sd_columnId := columnId; sd_direction := Asc |} ]
      end in
  let sortedRowOrder := sortRows (with_sort newSort prev) in
  with_rowOrder sortedRowOrder (with_sort newSort prev).

(** The [rows.forEach] loop of [setData]: [rowMap.set (id, row)] and
    [rowOrder.push (id)] for every row in turn. *)
Definition build_rows (rows : list Row) (getRowId : Row -> RowId)
  : gmap RowId Row * list RowId :=
  foldl (fun '(rowMap, rowOrder) row =>
           let id := getRowId row in
           (<[id := row]> rowMap, rowOrder ++ [id]))
        (∅, []) rows.

Definition setData (rows : list Row) (getRowId : Row -> RowId)
    (prev : GridState) : GridState :=
  let '(rowMap, rowOrder) := build_rows rows getRowId in
  let nextState := with_rowOrder rowOrder (with_rowMap rowMap prev) in
  if (0 <? length (sort prev))%nat
  then with_rowOrder (sortRows nextState) nextState
  else nextState.

End Sorting.

(** A relational comparison for concrete examples: numbers by value,
    strings in lexicographic order; it is used on columns whose cells have
    one of these two types. *)
Definition prim_lt (a b : JsVal) : bool :=
  match a, b with
  | VNum x, VNum y => x <? y
  | VStr x, VStr y => String.ltb x y
  | _, _ => false
  end.

(** ** Column visibility *)

(** [!v] for [v] a boolean or [undefined]. *)
Definition js_not (v : option bool) : bool :=
  match v with
  | Some b => negb b
  | None => true
  end.

Definition toggleColumnVisibility (columnId : string) (prev : GridState)
  : GridState :=
  with_columnVisibility
    (<[columnId := js_not (columnVisibility prev !! columnId)]>
       (columnVisibility prev))
    prev.

(** The visibility rule read by the layout engine from a store snapshot
    ([useColumnLayout] passes [state.columnVisibility] on): a column is
    shown unless its entry is [false]. *)
Definition effectively_visible (s : GridState) (columnId : string) : bool :=
  is_visible (Some (columnVisibility s)) columnId.

(** ** Editing and row updates *)

Definition startEdit (rowId : RowId) (colId : string) (value : JsVal)
    (prev : GridState) : GridState :=
  with_editingCell
    (Some {| ed_rowId := rowId;
             ed_colId := colId;
             ed_value := value;
             ed_originalValue := value;
             ed_isSaving := false;
             ed_error := None |})
    prev.

Definition updateEditValue (value : JsVal) (prev : GridState) : GridState :=
  match editingCell prev with
  | Some e =>
      with_editingCell
        (Some {| ed_rowId := ed_rowId e;
                 ed_colId := ed_colId e;
                 ed_value := value;
                 ed_originalValue := ed_originalValue e;
                 ed_isSaving := ed_isSaving e;
                 ed_error := None |})
        prev
  | None => prev
  end.

Definition cancelEdit (prev : GridState) : GridState :=
  with_editingCell None prev.

Definition setEditSaving (isSaving : bool) (prev : GridState) : GridState :=
  match editingCell prev with
  | Some e =>
      with_editingCell
        (Some {| ed_rowId := ed_rowId e;
                 ed_colId := ed_colId e;
                 ed_value := ed_value e;
                 ed_originalValue := ed_originalValue e;
                 ed_isSaving := isSaving;
                 ed_error := ed_error e |})
        prev
  | None => prev
  end.

Definition setEditError (error : option string) (prev : GridState)
  : GridState :=
  match editingCell prev with
  | Some e =>
      with_editingCell
        (Some {| ed_rowId := ed_rowId e;
                 ed_colId := ed_colId e;
                 ed_value := ed_value e;
                 ed_originalValue := ed_originalValue e;
                 ed_isSaving := false;
                 ed_error := error |})
        prev
  | None => prev
  end.

(** [{ ...row, ...updates }]: the fields of [updates] win. *)
Definition updateRow (rowId : RowId) (updates : Row) (prev : GridState)
  : GridState :=
  match rowMap prev !! rowId with
  | None => prev
  | Some row =>
      let newRow := updates ∪ row in
      with_rowMap (<[rowId := newRow]> (rowMap prev)) prev
  end.

Definition commitEdit (prev : GridState) : GridState :=
  match editingCell prev with
  | None => prev
  | Some e =>
      match rowMap prev !! ed_rowId e with
      | None => with_editingCell None prev
      | Some row =>
          let newRow := <[ed_colId e := ed_value e]> row in
          with_editingCell None
            (with_rowMap (<[ed_rowId e := newRow]> (rowMap prev)) prev)
      end
  end.

(** ** The cell editor's [commit] ([components/DataGrid/GridCell.tsx]) *)

(** The argument of [onCellEdit] and the way its call settles.  A failure
    hands the [catch] block a reason [e]: [Rejected m] is a failure with a
    reason on which [e.message] can be read, [m] being what is read
    ([None] when the reason has no [message]); [RejectedWithoutReason] is a
    failure whose reason is [undefined] or [null], on which reading
    [e.message] throws. *)
Record CellEdit := mkCellEdit {
  ce_rowId : RowId;
  ce_colId : string;
  ce_value : JsVal
}.

Inductive EditOutcome :=
  | Resolved
  | Rejected (message : option string)
  | RejectedWithoutReason.

(** [e.message || 'Validation failed']: a missing and an empty message are
    both falsy. *)
Definition message_or_default (message : option string) : string :=
  match message with
  | Some m => if bool_decide (m = EmptyString) then "Validation failed"%string else m
  | None => "Validation failed"%string
  end.

(** [commit], with the store transitions it issues applied in order to the
    snapshot [st]; the [editingCell] it reads is the one of [st].  The await
    on [onCellEdit] is modelled by the outcome of the call, with no other
    transition running in between.  When the reason of a failure is
    [undefined] or [null], the [catch] block stops at [e.message], after
    [updateRow] and [startEdit] and before [setEditError]. *)
Definition commit (onCellEdit : option (CellEdit -> EditOutcome))
    (st : GridState) : GridState :=
  match editingCell st with
  | None => st
  | Some e =>
      match onCellEdit with
      | Some onCellEdit =>
          let rowId := ed_rowId e in
          let colId := ed_colId e in
          let value := ed_value e in
          let oldValue :=
            match rowMap st !! rowId with
            | Some row => get_field row colId
            | None => VUndefined
            end in
          let st1 := commitEdit st in
          match onCellEdit {| ce_rowId := rowId; ce_colId := colId;
                              ce_value := value |} with
          | Resolved => st1
          | Rejected message =>
              let st2 := updateRow rowId {[ colId := oldValue ]} st1 in
              let st3 := startEdit rowId colId value st2 in
              setEditError (Some (message_or_default message)) st3
          | RejectedWithoutReason =>
              let st2 := updateRow rowId {[ colId := oldValue ]} st1 in
              startEdit rowId colId value st2
          end
      | None => commitEdit st
      end
  end.

(** ** Subscriptions and notification ([subscribe], [setState], [notify]) *)

(** A listener is identified by a number (the identity of the function
    object).  [listeners] is a JavaScript [Set]: a list of entries in
    insertion order, where [delete] leaves an empty slot behind and [add]
    appends a value that is not present.  This is the [[SetData]] list of
    the language definition, which [forEach] walks by index while the
    callbacks change it. *)
Abbreviation SetData := (list (option nat)).

Definition set_add (l : nat) (entries : SetData) : SetData :=
  if bool_decide (Some l ∈ entries) then entries else entries ++ [Some l].

Definition set_delete (l : nat) (entries : SetData) : SetData :=
  map (fun e => if bool_decide (e = Some l) then None else e) entries.

(** What a listener may do to the store's listener set while it runs:
    call [store.subscribe (l)], or call the function returned by an earlier
    [subscribe (l)]. *)
Inductive SetOp :=
  | Subscribe (l : nat)
  | Unsubscribe (l : nat).

Definition run_op (entries : SetData) (op : SetOp) : SetData :=
  match op with
  | Subscribe l => set_add l entries
  | Unsubscribe l => set_delete l entries
  end.

Definition run_ops (ops : list SetOp) (entries : SetData) : SetData :=
  foldl run_op entries ops.

(** The listeners registered in a set, in insertion order. *)
Definition registered (entries : SetData) : list nat :=
  omap id entries.

Record GridStore := mkGridStore {
  state : GridState;
  listeners : SetData
}.

Definition subscribe (listener : nat) (store : GridStore) : GridStore :=
  {| state := state store; listeners := set_add listener (listeners store) |}.

(** The function returned by [subscribe (listener)]. *)
Definition unsubscribe (listener : nat) (store : GridStore) : GridStore :=
  {| state := state store; listeners := set_delete listener (listeners store) |}.

Section Notify.

(** [body l s] is what listener [l] does to the listener set when it is
    called with snapshot [s]. *)
Variable body : nat -> GridState -> list SetOp.

(** [Set.prototype.forEach] from position [index] on: read
    [entries[index]], advance, call the listener if the slot is not
    empty, and look at the length of [entries] again.  The result is the
    set after the pass and the listeners called, in order; [None] when
    [fuel] steps do not finish the walk. *)
Fixpoint forEach (s : GridState) (fuel : nat) (entries : SetData)
    (index : nat) : option (SetData * list nat) :=
  match fuel with
  | O => None
  | S fuel' =>
      match entries !! index with
      | None => Some (entries, [])
      | Some None => forEach s fuel' entries (S index)
      | Some (Some l) =>
          match forEach s fuel' (run_ops (body l s) entries) (S index) with
          | Some (entries', called) => Some (entries', l :: called)
          | None => None
          end
      end
  end.

Definition notify (fuel : nat) (store : GridStore)
  : option (GridStore * list nat) :=
  match forEach (state store) fuel (listeners store) 0 with
  | Some (entries', called) =>
      Some ({| state := state store; listeners := entries' |}, called)
  | None => None
  end.

(** [setState (updater)]: replace the snapshot, then notify. *)
Definition setState (updater : GridState -> GridState) (fuel : nat)
    (store : GridStore) : option (GridStore * list nat) :=
  let nextState := updater (state store) in
  notify fuel {| state := nextState; listeners := listeners store |}.

End Notify.

(** How a listener set can change over time: a slot keeps its content or
    becomes empty, and slots are added at the end. *)
Definition evolves (e1 e2 : SetData) : Prop :=
  forall j x, e1 !! j = Some x -> e2 !! j = Some x \/ e2 !! j = Some None.

(** ** Column resizing and reordering ([resizeColumn], [moveColumn]) *)

Definition with_columnWidths (w : gmap string Z) (s : GridState) : GridState :=
  mkGridState (rowMap s) (rowOrder s) (columns s) w (columnOrder s)
    (pinnedColumns s) (columnVisibility s) (selectedRows s) (focusedCell s)
    (editingCell s) (sort s) (scrollTop s) (scrollLeft s).

Definition with_columnOrder (l : list string) (s : GridState) : GridState :=
  mkGridState (rowMap s) (rowOrder s) (columns s) (columnWidths s) l
    (pinnedColumns s) (columnVisibility s) (selectedRows s) (focusedCell s)
    (editingCell s) (sort s) (scrollTop s) (scrollLeft s).

Definition resizeColumn (columnId : string) (width : Z) (prev : GridState)
  : GridState :=
  with_columnWidths (<[columnId := Z.max 50 width]> (columnWidths prev)) prev.

(** [handleMouseMove] of [ResizeHandle.tsx], for a drag started at
    [startX] on a column of width [startWidth]. *)
Definition handleMouseMove (columnId : string) (startX startWidth clientX : Z)
    (prev : GridState) : GridState :=
  let deltaX := clientX - startX in
  let newWidth := startWidth + deltaX in
  resizeColumn columnId newWidth prev.

(** [array.findIndex (p)]: the first position whose element satisfies [p],
    or [-1]. *)
Fixpoint findIndex {A} (p : A -> bool) (l : list A) : Z :=
  match l with
  | [] => -1
  | x :: l' =>
      if p x then 0
      else let i := findIndex p l' in if i =? -1 then -1 else i + 1
  end.

(** [array.indexOf (x)]. *)
Definition indexOf {A} `{EqDecision A} (l : list A) (x : A) : Z :=
  findIndex (fun y => bool_decide (y = x)) l.

(** [array[i]] for a number [i]: [undefined] outside the array. *)
Definition array_get {A} (l : list A) (i : Z) : option A :=
  if i <? 0 then None else l !! Z.to_nat i.

(** [array.splice (i, 1)] and [array.splice (i, 0, x)] for a start index
    [0 <= i], the only case their callers reach; a start index beyond the
    end inserts at the end. *)
Definition splice_delete {A} (i : Z) (l : list A) : list A :=
  take (Z.to_nat i) l ++ drop (S (Z.to_nat i)) l.

Definition splice_insert {A} (i : Z) (x : A) (l : list A) : list A :=
  take (Z.to_nat i) l ++ x :: drop (Z.to_nat i) l.

Definition moveColumn (dragColumnId hoverColumnId : string) (prev : GridState)
  : GridState :=
  let newOrder := columnOrder prev in
  let dragIndex := indexOf newOrder dragColumnId in
  let hoverIndex := indexOf newOrder hoverColumnId in
  if (dragIndex =? -1) || (hoverIndex =? -1) || (dragIndex =? hoverIndex)
  then prev
  else
    let newOrder := splice_delete dragIndex newOrder in
    let newOrder := splice_insert hoverIndex dragColumnId newOrder in
    with_columnOrder newOrder prev.

(** [handleDrop] of [GridHeaderCell.tsx] on the header of [columnId], the
    drag carrying [sourceId]; an empty string is falsy. *)
Definition handleDrop (columnId sourceId : string) (prev : GridState)
  : GridState :=
  if negb (bool_decide (sourceId = EmptyString))
     && negb (bool_decide (sourceId = columnId))
  then moveColumn sourceId columnId prev
  else prev.

(** ** The stand-alone grid component ([components/DataGrid/DataGrid.tsx]) *)

(** [dispatchSortAction]: the next value of the component's [sort] state. *)
Definition dispatchSortAction (colId : string) (multi : bool)
    (prev : list SortDescriptor) : list SortDescriptor :=
  let existingIdx :=
    findIndex (fun s => bool_decide (sd_columnId s = colId)) prev in
  let existing := array_get prev existingIdx in
  let nextSort := if multi then prev else [] in
  match existing with
  | Some e =>
      match sd_direction e with
      | Asc =>
          if multi
          then <[Z.to_nat existingIdx :=
                   {| sd_columnId := sd_columnId e; sd_direction := Desc |}]>
                 nextSort
          else [ {| sd_columnId := colId; sd_direction := Desc |} ]
      | Desc =>
          if multi then splice_delete existingIdx nextSort else []
      end
  | None =>
      let newSort := {| sd_columnId := colId; sd_direction := Asc |} in
      if multi then nextSort ++ [newSort] else [newSort]
  end.

(** The keys [handleKeyDown] tells apart. *)
Inductive Key := ArrowUp | ArrowDown | ArrowLeft | ArrowRight | Space | OtherKey.

Definition is_arrow (k : Key) : bool :=
  match k with
  | ArrowUp | ArrowDown | ArrowLeft | ArrowRight => true
  | _ => false
  end.

(** The component state that [handleKeyDown] reads and writes. *)
Record CursorState := mkCursorState {
  cursorPosition : option CellPosition;
  selected : gset RowId
}.

(** [handleKeyDown], on the ids of [sortedData] and of [columns].  The
    result is the next cursor and selection; the scroll requests that the
    handler also sends to the scroll element are not part of this state. *)
Definition handleKeyDown (rowIds : list RowId) (colIds : list string)
    (key : Key) (st : CursorState) : CursorState :=
  match cursorPosition st with
  | None =>
      if (0 <? length rowIds)%nat && (0 <? length colIds)%nat && is_arrow key
      then
        match array_get rowIds 0, array_get colIds 0 with
        | Some r, Some c =>
            {| cursorPosition := Some {| cp_rowId := r; cp_colId := c |};
               selected := selected st |}
        | _, _ => st
        end
      else st
  | Some cur =>
      let rowIndex := findIndex (fun r => bool_decide (r = cp_rowId cur)) rowIds in
      let colIndex := findIndex (fun c => bool_decide (c = cp_colId cur)) colIds in
      if (rowIndex =? -1) || (colIndex =? -1) then st
      else
        let move nextRowIndex nextColIndex :=
          match array_get rowIds nextRowIndex, array_get colIds nextColIndex with
          | Some r, Some c =>
              {| cursorPosition := Some {| cp_rowId := r; cp_colId := c |};
                 selected := selected st |}
          | _, _ => st
          end in
        match key with
        | ArrowUp => move (Z.max 0 (rowIndex - 1)) colIndex
        | ArrowDown =>
            move (Z.min (Z.of_nat (length rowIds) - 1) (rowIndex + 1)) colIndex
        | ArrowLeft => move rowIndex (Z.max 0 (colIndex - 1))
        | ArrowRight =>
            move rowIndex (Z.min (Z.of_nat (length colIds) - 1) (colIndex + 1))
        | Space =>
            match array_get rowIds rowIndex with
            | Some rowId =>
                {| cursorPosition := cursorPosition st;
                   selected := if bool_decide (rowId ∈ selected st)
                               then selected st ∖ {[ rowId ]}
                               else selected st ∪ {[ rowId ]} |}
            | None => st
            end
        | OtherKey => st
        end
  end.

(** ** Row rendering ([GridBody.tsx], [GridRow.tsx]) *)

(** The rows [GridBody] renders: one per item of the range computed for
    [rowOrder.length] rows at the snapshot's [scrollTop], with
    [rowOrder[virtualItem.index]] as row id; [GridRow] then reads the row
    from [rowMap] and renders nothing when it is missing.  [ROW_HEIGHT] and
    [OVERSCAN_COUNT] come from [core/constants], which is not part of the
    sources at hand, and are parameters. *)
Definition gridBody_rows (ROW_HEIGHT OVERSCAN_COUNT viewportHeight : Z)
    (s : GridState) : list (option RowId) :=
  map (fun virtualItem => array_get (rowOrder s) (vi_index virtualItem))
      (items (calculateRange
                {| count := Z.of_nat (length (rowOrder s));
                   getScrollOffset := scrollTop s;
                   getContainerSize := viewportHeight;
                   estimateSize := fun _ => ROW_HEIGHT;
                   overscan := Some OVERSCAN_COUNT |})).

Definition gridRow_data (s : GridState) (rowId : option RowId) : option Row :=
  match rowId with
  | Some id => rowMap s !! id
  | None => None
  end.

(** ** Example data *)

(** The usual [getRowId]: [row => row.id]. *)
Definition by_id (row : Row) : RowId :=
  match get_field row "id" with
  | VNum n => RNum n
  | VStr s => RStr s
  | _ => RStr EmptyString
  end.

Definition person (id : Z) (age : JsVal) : Row :=
  {[ "id"%string := VNum id; "age"%string := age ]}.

(** Two rows, the first with no age. *)
Definition rows_with_null : list Row := [ person 1 VNull; person 2 (VNum 5) ].

(** Three rows whose ages are not in insertion order. *)
Definition rows_by_age : list Row :=
  [ person 1 (VNum 2); person 2 (VNum 3); person 3 (VNum 1) ].

(** Two rows with the same id. *)
Definition rows_same_id : list Row := [ person 7 (VNum 1); person 7 (VNum 2) ].

(** A store snapshot with [rows] loaded and the [age] column clicked
    [clicks] times (unsorted, ascending, descending, unsorted, ...). *)
Definition loaded (rows : list Row) (clicks : nat) : GridState :=
  Nat.iter clicks (toggleSort prim_lt "age" false)
           (setData prim_lt rows by_id (initialState [])).

(** The snapshot of [new GridStore ({ columnOrder: ['name'],
    columnWidths: { name: 100 } })]: no column definitions were given, so
    the visibility map computed by the constructor is empty. *)
Definition one_column_state : GridState :=
  {| rowMap := ∅;
     rowOrder := [];
     columns := [];
     columnWidths := {[ "name"%string := 100 ]};
     columnOrder := [ "name"%string ];
     pinnedColumns := {| pin_left := []; pin_right := [] |};
     columnVisibility := ∅;
     selectedRows := ∅;
     focusedCell := None;
     editingCell := None;
     sort := [];
     scrollTop := 0;
     scrollLeft := 0 |}.

(** The ids laid out for a snapshot, as [useColumnLayout] asks for them
    (pixel overscan 300). *)
Definition layout_ids (s : GridState) (viewportWidth : Z) : list string :=
  map vc_id
      (virtualColumns
         (calculateLayout
            {| opt_columnOrder := columnOrder s;
               opt_columnWidths := columnWidths s;
               opt_columnVisibility := Some (columnVisibility s);
               opt_pinnedColumns := pinnedColumns s;
               opt_scrollLeft := scrollLeft s;
               opt_viewportWidth := viewportWidth;
               opt_overscan := Some 300 |})).

(** A snapshot with the three rows of [rows_by_age] and an edit of the age
    of row 1 under way, the user having typed ["x"]. *)
Definition editing_state : GridState :=
  updateEditValue (VStr "x")
    (startEdit (RNum 1) "age" (VNum 2) (loaded rows_by_age 0)).

(** The same edit on a row that the data no longer has. *)
Definition stale_editing_state : GridState :=
  updateEditValue (VStr "x")
    (startEdit (RNum 9) "age" (VNum 2) (loaded rows_by_age 0)).

(** An [onCellEdit] that rejects every edit with the given message. *)
Definition reject_with (message : string) (_ : CellEdit) : EditOutcome :=
  Rejected (Some message).

(** An [onCellEdit] that fails with no reason, as [() => Promise.reject ()]
    does. *)
Definition reject_without_reason (_ : CellEdit) : EditOutcome :=
  RejectedWithoutReason.

(** Listener 0 subscribes listener 1 when it is called; the others do
    nothing to the listener set. *)
Definition subscribing_body (l : nat) (_ : GridState) : list SetOp :=
  match l with
  | O => [Subscribe 1]
  | _ => []
  end.

(** Listener 0 unsubscribes listener 1 when it is called. *)
Definition unsubscribing_body (l : nat) (_ : GridState) : list SetOp :=
  match l with
  | O => [Unsubscribe 1]
  | _ => []
  end.

(** Listeners that leave the listener set alone. *)
Definition passive_body (_ : nat) (_ : GridState) : list SetOp := [].

(** A store with the given listeners subscribed in turn. *)
Definition store_with (ls : list nat) : GridStore :=
  foldl (fun store l => subscribe l store)
        {| state := initialState []; listeners := [] |} ls.

(** ** Notions used in the statements below *)

(** The data invariant of a snapshot: every id of [rowOrder] is a key of
    [rowMap]. *)
Definition rows_consistent (s : GridState) : Prop :=
  Forall (fun id => is_Some (rowMap s !! id)) (rowOrder s).

(** The summed widths of a sequence of columns, each read as the layout
    reads it. *)
Definition sum_widths (widths : gmap string Z) (ids : list string) : Z :=
  foldr (fun id total => width_of widths id + total) 0 ids.

(** The test [end >= visibleStart && start <= visibleEnd]. *)
Definition intersects (visibleStart visibleEnd start end_ : Z) : bool :=
  (visibleStart <=? end_) && (start <=? visibleEnd).

(** The pixel window of a layout request. *)
Definition window_start (o : ColumnVirtualizerOptions) : Z :=
  opt_scrollLeft o - default 200 (opt_overscan o).

Definition window_end (o : ColumnVirtualizerOptions) : Z :=
  opt_scrollLeft o + opt_viewportWidth o + default 200 (opt_overscan o).

(** One round of the layout loop, stated on its own: the column pushed for
    [id] at position [index], pixel offset [off] and left accumulator
    [acc], if any. *)
Definition column_at (widths : gmap string Z) (lefts rights : list string)
    (offsets : gmap string Z) (visibleStart visibleEnd : Z)
    (id : string) (index off acc : Z) : option VirtualColumn :=
  let width := width_of widths id in
  if includes lefts id || includes rights id
     || intersects visibleStart visibleEnd off (off + width)
  then Some {| vc_index := index;
               vc_id := id;
               vc_start := off;
               vc_size := width;
               vc_end := off + width;
               vc_isPinned := if includes lefts id then PinLeft
                              else if includes rights id then PinRight
                              else PinNone;
               vc_stickyOffset :=
                 if includes lefts id then acc
                 else if includes rights id then default 0 (offsets !! id)
                 else 0 |}
  else None.

(** The summed widths of the columns of [ids] that are pinned left. *)
Definition left_widths (widths : gmap string Z) (lefts : list string)
    (ids : list string) : Z :=
  sum_widths widths (List.filter (includes lefts) ids).

(** A layout request with a hidden column [h], [z] pinned left, [a] pinned
    right, and a window that the last scrollable column [d] lies beyond. *)
Definition example_layout : ColumnVirtualizerOptions :=
  {| opt_columnOrder := ["a"; "b"; "h"; "c"; "d"; "z"]%string;
     opt_columnWidths :=
       {[ "a"%string := 80; "c"%string := 400; "d"%string := 120;
          "z"%string := 60 ]};
     opt_columnVisibility := Some {[ "h"%string := false ]};
     opt_pinnedColumns :=
       {| pin_left := ["z"%string]; pin_right := ["y"; "a"]%string |};
     opt_scrollLeft := 0;
     opt_viewportWidth := 300;
     opt_overscan := Some 100 |}.

(** The columns of the demo application ([App.tsx]) and the snapshot of a
    store created with them. *)
Definition app_columns : list ColumnDef :=
  [ {| cd_id := "id"; cd_title := "ID"; cd_width := 80; cd_pinned := PinLeft |};
    {| cd_id := "firstName"; cd_title := "First Name"; cd_width := 150;
       cd_pinned := PinNone |};
    {| cd_id := "lastName"; cd_title := "Last Name"; cd_width := 150;
       cd_pinned := PinNone |};
    {| cd_id := "email"; cd_title := "Email"; cd_width := 250;
       cd_pinned := PinNone |};
    {| cd_id := "age"; cd_title := "Age"; cd_width := 80; cd_pinned := PinNone |} ].

Definition app_state : GridState := initialState app_columns.

(** The descriptors [toggleSort] computes from the current ones, on their
    own (the value of its [newSort]). *)
Definition toggled_sort (columnId : string) (multi : bool)
    (sort : list SortDescriptor) : list SortDescriptor :=
  let existingSort :=
    List.find (fun s => bool_decide (sd_columnId s = columnId)) sort in
  if negb multi then
    match existingSort with
    | Some e =>
        match sd_direction e with
        | Asc => [ {| sd_columnId := columnId; sd_direction := Desc |} ]
        | Desc => []
        end
    | None => [ {| sd_columnId := columnId; sd_direction := Asc |} ]
    end
  else
    match existingSort with
    | Some e =>
        match sd_direction e with
        | Asc =>
            map (fun s => if bool_decide (sd_columnId s = columnId)
                          then {| sd_columnId := sd_columnId s;
                                  sd_direction := Desc |}
                          else s)
                sort
        | Desc =>
            List.filter
              (fun s => negb (bool_decide (sd_columnId s = columnId)))
              sort
        end
    | None =>
        sort ++ [ {| sd_columnId := columnId; sd_direction := Asc |} ]
    end.

(** The number held in column [columnId] by the row with id [id], if the
    row exists and the cell is a number. *)
Definition num_at (rowMap : gmap RowId Row) (columnId : string) (id : RowId)
  : option Z :=
  match rowMap !! id with
  | Some row =>
      match get_field row columnId with
      | VNum n => Some n
      | _ => None
      end
  | None => None
  end.

(** Every row in [rowOrder] has a number in column [columnId]. *)
Definition numeric_column (s : GridState) (columnId : string) : Prop :=
  Forall (fun id => is_Some (num_at (rowMap s) columnId id)) (rowOrder s).

(** The order a descriptor asks for between two rows, on a numeric
    column. *)
Definition in_order (rowMap : gmap RowId Row) (d : SortDescriptor)
    (a b : RowId) : Prop :=
  let ka := default 0 (num_at rowMap (sd_columnId d) a) in
  let kb := default 0 (num_at rowMap (sd_columnId d) b) in
  match sd_direction d with
  | Asc => ka <= kb
  | Desc => kb <= ka
  end.

(** The editing transitions other than committing, as requests, and a
    sequence of them applied in order. *)
Inductive EditAction :=
  | DoStartEdit (rowId : RowId) (colId : string) (value : JsVal)
  | DoUpdateEditValue (value : JsVal)
  | DoSetEditSaving (isSaving : bool)
  | DoSetEditError (error : option string)
  | DoCancelEdit.

Definition run_edit_action (s : GridState) (a : EditAction) : GridState :=
  match a with
  | DoStartEdit rowId colId value => startEdit rowId colId value s
  | DoUpdateEditValue value => updateEditValue value s
  | DoSetEditSaving isSaving => setEditSaving isSaving s
  | DoSetEditError error => setEditError error s
  | DoCancelEdit => cancelEdit s
  end.

Definition run_edit_actions (actions : list EditAction) (s : GridState)
  : GridState :=
  foldl run_edit_action s actions.

(** An [onCellEdit] that accepts every edit. *)
Definition accept_all (_ : CellEdit) : EditOutcome := Resolved.

(** A cursor that points at a row of the data and a column of the grid. *)
Definition cell_exists (rowIds : list RowId) (colIds : list string)
    (c : CellPosition) : Prop :=
  cp_rowId c ∈ rowIds /\ cp_colId c ∈ colIds.

(** * Properties *)

(** ** Row virtualizer *)

Lemma length_make_items itemSize lo hi :
  length (make_items itemSize lo hi) = Z.to_nat (hi - lo + 1).
Proof. unfold make_items. by rewrite length_map, length_seqZ. Qed.

Lemma make_items_geometry itemSize lo hi :
  Forall (fun it => vi_start it = vi_index it * itemSize /\
                    vi_end it = vi_start it + itemSize)
         (make_items itemSize lo hi).
Proof.
  unfold make_items. apply Forall_map, Forall_forall.
  intros i _. simpl. split; lia.
Qed.

Lemma make_items_indices itemSize lo hi :
  Forall (fun it => lo <= vi_index it <= hi) (make_items itemSize lo hi).
Proof.
  unfold make_items. apply Forall_map, Forall_forall.
  intros i Hi. apply elem_of_seqZ in Hi. simpl. lia.
Qed.

(** The ranges expected by the repository's tests. *)
Example range_initial :
  let r := calculateRange (fixed_options 1000 100 400 40 (Some 2)) in
  startIndex r = 0 /\ endIndex r = 15 /\ totalSize r = 40000.
Proof. by vm_compute. Qed.

Example range_scrolled :
  let r := calculateRange (fixed_options 1000 1000 500 50 (Some 2)) in
  startIndex r = 18 /\ endIndex r = 32 /\
  head (items r) = Some {| vi_index := 18; vi_start := 900; vi_size := 50;
                           vi_end := 950 |}.
Proof. by vm_compute. Qed.

Example range_empty :
  calculateRange (fixed_options 0 70 400 40 None) =
  {| startIndex := 0; endIndex := 0; items := []; totalSize := 0 |}.
Proof. reflexivity. Qed.

Lemma floor_le_ceil a c b : 0 < b -> 0 <= c -> floor_div a b <= ceil_div (a + c) b.
Proof.
  intros Hb Hc. unfold floor_div, ceil_div.
  Z.to_euclidean_division_equations. nia.
Qed.

(** While the viewport lies inside the content, [calculateRange] returns an
    ordered range within the rows. *)
Lemma calculateRange_in_range count scrollOffset containerSize itemSize ov :
  1 <= count -> 0 < itemSize -> 0 <= ov ->
  0 <= containerSize -> 0 <= scrollOffset + containerSize ->
  scrollOffset < count * itemSize ->
  range_ok count itemSize
    (calculateRange
       (fixed_options count scrollOffset containerSize itemSize (Some ov))).
Proof.
  intros Hc Hs Ho Hcs Hend Hlt.
  unfold calculateRange, fixed_options, range_ok. simpl.
  destruct (Z.eqb_spec count 0) as [-> | _]; [lia |]. simpl.
  pose proof (floor_le_ceil scrollOffset containerSize itemSize Hs Hcs) as Hfc.
  assert (floor_div scrollOffset itemSize <= count - 1) as Hfl.
  { unfold floor_div. Z.to_euclidean_division_equations. nia. }
  assert (0 <= ceil_div (scrollOffset + containerSize) itemSize) as Hce.
  { unfold ceil_div. Z.to_euclidean_division_equations. nia. }
  repeat split; try lia.
  apply make_items_geometry.
Qed.

(** The hook's [measure] clamps both raw indices, and its range is ordered
    and within the rows at every scroll position. *)
Lemma measure_range_ok count scrollTop containerHeight itemSize ov :
  1 <= count -> 0 < itemSize -> 0 <= ov -> 0 <= containerHeight ->
  range_ok count itemSize (measure count scrollTop containerHeight itemSize ov).
Proof.
  intros Hc Hs Ho Hcs. unfold measure, range_ok. simpl.
  pose proof (floor_le_ceil scrollTop containerHeight itemSize Hs Hcs) as Hfc.
  repeat split; try lia.
  apply make_items_geometry.
Qed.

(** C3.  [calculateRange] clamps the raw start index from below only and
    the raw end index from above only.  With 10 rows of height 10 and a
    scroll offset of 1000, beyond the content, the returned start index is
    95 and the end index 9; with a scroll offset of -1000 the end index is
    -85.  Neither result satisfies [0 <= startIndex <= endIndex <= count-1],
    while [measure] returns the range [4, 9] and [0, 5] on the same inputs. *)
Theorem calculateRange_unclamped :
  let beyond := calculateRange (fixed_options 10 1000 100 10 (Some 5)) in
  let before := calculateRange (fixed_options 10 (-1000) 100 10 (Some 5)) in
  (startIndex beyond = 95 /\ endIndex beyond = 9 /\ items beyond = [] /\
   ~ range_ok 10 10 beyond) /\
  (startIndex before = 0 /\ endIndex before = -85 /\ items before = [] /\
   ~ range_ok 10 10 before) /\
  (startIndex (measure 10 1000 100 10 5) = 4 /\
   endIndex (measure 10 1000 100 10 5) = 9) /\
  (startIndex (measure 10 (-1000) 100 10 5) = 0 /\
   endIndex (measure 10 (-1000) 100 10 5) = 5).
Proof.
  cbv zeta.
  repeat split; try reflexivity.
  - unfold range_ok. vm_compute. intros (_ & H & _). by apply H.
  - unfold range_ok. vm_compute. intros (_ & H & _). by apply H.
Qed.

Lemma item_count_bound count scrollOffset :
  (length (items (calculateRange
                    (fixed_options count scrollOffset 800 35 None))) < 100)%nat.
Proof.
  unfold calculateRange, fixed_options. simpl.
  destruct (count =? 0); simpl; [lia |].
  rewrite length_make_items. unfold floor_div, ceil_div.
  Z.to_euclidean_division_equations. lia.
Qed.

(** C5.  With a million rows of height 35, a container of height 800, the
    default overscan and the scroll offset at its maximum
    [totalSize - containerSize], the end index is [count - 1] and 28 items
    are emitted; and whatever the row count and the scroll offset, fewer
    than 100 items are emitted for this container and row height. *)
Theorem million_rows_at_max_scroll :
  let count := 1000000 in
  let r := calculateRange
             (fixed_options count (count * 35 - 800) 800 35 None) in
  endIndex r = count - 1 /\
  length (items r) = 28%nat /\
  (length (items r) < 100)%nat /\
  forall count' scrollOffset,
    (length (items (calculateRange
                      (fixed_options count' scrollOffset 800 35 None))) < 100)%nat.
Proof.
  cbv zeta. split; [reflexivity |].
  split; [by vm_compute |].
  split; [apply item_count_bound |].
  apply item_count_bound.
Qed.

(** ** Column layout *)

Section LayoutWalk.

Variables (widths : gmap string Z) (lefts rights : list string)
          (offsets : gmap string Z) (visibleStart visibleEnd : Z).

Let walk := layout_walk widths lefts rights offsets visibleStart visibleEnd.

(** The ids pushed by the walk, in order. *)
Let walk_ids (ids : list string) (index off acc : Z) : list string :=
  map vc_id (fst (walk ids index off acc)).

Lemma walk_ids_cons id rest index off acc :
  exists keep acc',
    walk_ids (id :: rest) index off acc =
    (if keep : bool then [id] else []) ++
    walk_ids rest (index + 1) (off + width_of widths id) acc' /\
    (includes lefts id || includes rights id = true -> keep = true).
Proof.
  unfold walk_ids, walk. simpl.
  destruct (includes lefts id) eqn:HL; [| destruct (includes rights id) eqn:HR].
  - exists true, (acc + width_of widths id).
    destruct (layout_walk _ _ _ _ _ _ rest _ _ _) as [cols total].
    simpl. auto.
  - exists true, acc.
    destruct (layout_walk _ _ _ _ _ _ rest _ _ _) as [cols total].
    simpl. auto.
  - exists ((visibleStart <=? off + width_of widths id) && (off <=? visibleEnd)), acc.
    destruct (layout_walk _ _ _ _ _ _ rest _ _ _) as [cols total].
    split; [| discriminate].
    destruct ((visibleStart <=? off + width_of widths id) && (off <=? visibleEnd));
      reflexivity.
Qed.

(** Pinned columns are always pushed. *)
Lemma walk_ids_pinned ids : forall index off acc,
  Forall (fun id => includes lefts id || includes rights id = true) ids ->
  walk_ids ids index off acc = ids.
Proof.
  induction ids as [| id rest IH]; intros index off acc Hall; [reflexivity |].
  inversion Hall as [| ? ? Hid Hrest]; subst.
  destruct (walk_ids_cons id rest index off acc) as (keep & acc' & -> & Hkeep).
  rewrite (Hkeep Hid), IH by assumption. reflexivity.
Qed.

(** The walk pushes a subsequence of the ids it is given. *)
Lemma walk_ids_sublist ids : forall index off acc,
  sublist (walk_ids ids index off acc) ids.
Proof.
  induction ids as [| id rest IH]; intros index off acc.
  - apply sublist_nil.
  - destruct (walk_ids_cons id rest index off acc) as (keep & acc' & -> & _).
    destruct keep; simpl.
    + apply sublist_skip, IH.
    + apply sublist_cons, IH.
Qed.

(** Walking a concatenation is walking the first part, then the second
    part from the loop variables the first part left. *)
Lemma walk_ids_app ids1 ids2 : forall index off acc,
  exists index' off' acc',
    walk_ids (ids1 ++ ids2) index off acc =
    walk_ids ids1 index off acc ++ walk_ids ids2 index' off' acc'.
Proof.
  induction ids1 as [| id rest IH]; intros index off acc.
  - exists index, off, acc. reflexivity.
  - unfold walk_ids, walk. simpl.
    destruct (includes lefts id); [| destruct (includes rights id)];
      match goal with
      | |- context [layout_walk _ _ _ _ _ _ (rest ++ ids2) ?i ?o ?a] =>
          destruct (IH i o a) as (index' & off' & acc' & Heq);
          exists index', off', acc';
          unfold walk_ids, walk in Heq;
          destruct (layout_walk _ _ _ _ _ _ (rest ++ ids2) i o a) as [c1 t1];
          destruct (layout_walk _ _ _ _ _ _ rest i o a) as [c2 t2]
      end;
      simpl in *; rewrite ?map_app, Heq; simpl;
      try destruct (_ && _); simpl; rewrite ?app_assoc; reflexivity.
Qed.

End LayoutWalk.

Lemma includes_self (l : list string) :
  Forall (fun id => includes l id = true) l.
Proof.
  apply Forall_forall. intros id Hin. unfold includes.
  by apply bool_decide_eq_true.
Qed.

(** The ids of the columns returned by [calculateLayout], split along the
    three groups of the visual order. *)
Lemma layout_ids_split (o : ColumnVirtualizerOptions) :
  let ids := map vc_id (virtualColumns (calculateLayout o)) in
  exists mid,
    ids = leftIds o ++ mid ++ rightIds o /\
    sublist mid (scrollableIds o) /\
    take (length (leftIds o)) ids = leftIds o /\
    drop (length ids - length (rightIds o)) ids = rightIds o.
Proof.
  cbv zeta. unfold calculateLayout.
  set (walk := layout_walk _ _ _ _ _ _) in *.
  assert (exists mid,
            map vc_id (fst (walk (visualOrder o) 0 0 0)) =
            leftIds o ++ mid ++ rightIds o /\
            sublist mid (scrollableIds o)) as (mid & Hids & Hsub).
  { unfold visualOrder, walk.
    edestruct walk_ids_app as (i1 & o1 & a1 & ->).
    edestruct walk_ids_app as (i2 & o2 & a2 & ->).
    rewrite walk_ids_pinned.
    2: { eapply Forall_impl; [apply includes_self |].
         intros id Hid. simpl in Hid. by rewrite Hid. }
    rewrite (walk_ids_pinned _ _ _ _ _ _ (rightIds o)).
    2: { eapply Forall_impl; [apply includes_self |].
         intros id Hid. simpl in Hid. rewrite Hid. apply orb_true_r. }
    eexists. split; [reflexivity |]. apply walk_ids_sublist. }
  destruct (walk (visualOrder o) 0 0 0) as [cols total]. simpl in *.
  exists mid. rewrite Hids. repeat split; try assumption.
  - by rewrite take_app_length.
  - rewrite app_assoc.
    replace (length ((leftIds o ++ mid) ++ rightIds o) - length (rightIds o))%nat
      with (length (leftIds o ++ mid)) by (rewrite (length_app (_ ++ _)); lia).
    by rewrite drop_app_length.
Qed.

Lemma List_filter_sublist {A} (p : A -> bool) (l : list A) :
  sublist (List.filter p l) l.
Proof.
  induction l as [| x l IH]; simpl; [done |].
  destruct (p x); [by apply sublist_skip | by apply sublist_cons].
Qed.

(** C6.  Call a column shown when [columnVisibility] is missing or does not
    map it to [false].  The ids of the columns returned by
    [calculateLayout] are: the shown ids of [pinnedColumns.left], all of
    them and in the order of [pinnedColumns.left]; then ids taken from
    [columnOrder], in its order, each of them shown and in neither pin
    list; then the shown ids of [pinnedColumns.right], all of them and in
    the order of [pinnedColumns.right].  So a shown left-pinned column is
    among the first columns of the output wherever it stands in
    [columnOrder], and the shown right-pinned columns are the last. *)
Theorem pinned_columns_relocated (o : ColumnVirtualizerOptions) :
  let pinned := opt_pinnedColumns o in
  let shown (id : string) : bool :=
    match opt_columnVisibility o with
    | Some visibility => bool_decide (visibility !! id ≠ Some false)
    | None => true
    end in
  let left := List.filter shown (pin_left pinned) in
  let right := List.filter shown (pin_right pinned) in
  let ids := map vc_id (virtualColumns (calculateLayout o)) in
  exists mid,
    ids = left ++ mid ++ right /\
    sublist mid (opt_columnOrder o) /\
    (forall id, id ∈ mid ->
                (id ∉ pin_left pinned) /\ (id ∉ pin_right pinned) /\
                shown id = true) /\
    take (length left) ids = left /\
    drop (length ids - length right) ids = right.
Proof.
  cbv zeta.
  destruct (layout_ids_split o) as (mid & Hids & Hsub & Htake & Hdrop).
  exists mid. split; [exact Hids |].
  split; [etrans; [exact Hsub | apply List_filter_sublist] |].
  split; [| by split].
  intros id Hmid.
  pose proof (elem_of_sublist _ _ _ Hmid Hsub) as Hin.
  apply list_elem_of_In, filter_In in Hin as [_ Hp].
  apply andb_true_iff in Hp as [Hp Hshown].
  apply andb_true_iff in Hp as [Hl Hr].
  apply negb_true_iff, bool_decide_eq_false in Hl.
  apply negb_true_iff, bool_decide_eq_false in Hr.
  done.
Qed.

(** Column [z] is last in [columnOrder] and pinned left, [a] is first and
    pinned right, [h] is hidden: the layout is [z], then [b] and [c], then
    [a]. *)
Example layout_pinned :
  map (fun c => (vc_id c, vc_isPinned c, vc_start c, vc_stickyOffset c))
      (virtualColumns
         (calculateLayout
            {| opt_columnOrder := ["a"; "b"; "h"; "c"; "z"]%string;
               opt_columnWidths := {[ "a"%string := 80; "z"%string := 60 ]};
               opt_columnVisibility := Some {[ "h"%string := false ]};
               opt_pinnedColumns :=
                 {| pin_left := ["z"%string]; pin_right := ["a"%string] |};
               opt_scrollLeft := 0;
               opt_viewportWidth := 800;
               opt_overscan := None |})) =
  [ ("z"%string, PinLeft, 0, 0); ("b"%string, PinNone, 60, 0);
    ("c"%string, PinNone, 160, 0); ("a"%string, PinRight, 260, 0) ].
Proof. by vm_compute. Qed.

(** ** Sorting *)

Lemma sort_insert_perm {A} (compare : A -> A -> Z) x l :
  sort_insert compare x l ≡ₚ x :: l.
Proof.
  induction l as [| y l IH]; simpl; [done |].
  destruct (0 <? compare x y); [| done].
  rewrite IH. apply Permutation_swap.
Qed.

Lemma array_sort_perm {A} (compare : A -> A -> Z) l :
  array_sort compare l ≡ₚ l.
Proof.
  induction l as [| x l IH]; simpl; [done |].
  rewrite sort_insert_perm. by rewrite IH.
Qed.

Section SortingFacts.

Variable js_lt : JsVal -> JsVal -> bool.

Lemma sortRows_perm st : sortRows js_lt st ≡ₚ rowOrder st.
Proof.
  unfold sortRows. destruct (_ =? _)%nat; [done |]. apply array_sort_perm.
Qed.

Lemma sortRows_no_sort st : sort st = [] -> sortRows js_lt st = rowOrder st.
Proof. unfold sortRows. by intros ->. Qed.

(** What the comparator returns on the first descriptor when the left
    value is [null] or [undefined] and the right one is not: [1] for an
    ascending descriptor, [-1] for a descending one. *)
Lemma compare_by_null_left s rest (rowA rowB : Row) :
  is_nullish (get_field rowA (sd_columnId s)) = true ->
  is_nullish (get_field rowB (sd_columnId s)) = false ->
  compare_by js_lt (s :: rest) rowA rowB =
  match sd_direction s with Asc => 1 | Desc => -1 end.
Proof.
  intros HA HB. simpl. unfold strict_eq.
  case_bool_decide as Heq; [congruence |].
  rewrite HA. by destruct (sd_direction s).
Qed.

Lemma build_rows_from (getRowId : Row -> RowId) rows :
  forall (m : gmap RowId Row) (o : list RowId) id,
    let r := foldl (fun '(rowMap, rowOrder) row =>
                      let id := getRowId row in
                      (<[id := row]> rowMap, rowOrder ++ [id]))
                   (m, o) rows in
    fst r !! id =
      match last (List.filter (fun r => bool_decide (getRowId r = id)) rows) with
      | Some row => Some row
      | None => m !! id
      end /\
    snd r = o ++ map getRowId rows.
Proof.
  induction rows as [| row rows IH]; intros m o id; simpl.
  - by rewrite app_nil_r.
  - destruct (IH (<[getRowId row := row]> m) (o ++ [getRowId row]) id)
      as [Hm Ho].
    simpl in Hm, Ho. rewrite Hm, Ho. split.
    + case_bool_decide as Hid.
      * rewrite last_cons. subst id.
        destruct (last _); [done |]. apply lookup_insert_eq.
      * destruct (last _); [done |]. by apply lookup_insert_ne.
    + by rewrite <- app_assoc.
Qed.

Lemma build_rows_spec (getRowId : Row -> RowId) rows id :
  fst (build_rows rows getRowId) !! id =
    last (List.filter (fun r => bool_decide (getRowId r = id)) rows) /\
  snd (build_rows rows getRowId) = map getRowId rows.
Proof.
  destruct (build_rows_from getRowId rows ∅ [] id) as [Hm Ho].
  unfold build_rows. simpl in *. rewrite Hm, Ho. split; [| done].
  destruct (last _); [done |]. apply lookup_empty.
Qed.

Lemma setData_rowMap rows getRowId prev :
  rowMap (setData js_lt rows getRowId prev) = fst (build_rows rows getRowId).
Proof.
  unfold setData. destruct (build_rows rows getRowId) as [m o].
  by destruct (0 <? _)%nat.
Qed.

Lemma setData_rowOrder_perm rows getRowId prev :
  rowOrder (setData js_lt rows getRowId prev) ≡ₚ map getRowId rows.
Proof.
  pose proof (build_rows_spec getRowId rows (RNum 0)) as [_ Ho].
  unfold setData. destruct (build_rows rows getRowId) as [m o].
  simpl in Ho. subst o.
  destruct (0 <? _)%nat; simpl; [| done].
  apply sortRows_perm.
Qed.

Lemma occurrences_perm (id : RowId) (l1 l2 : list RowId) :
  l1 ≡ₚ l2 ->
  length (List.filter (fun i => bool_decide (i = id)) l1) =
  length (List.filter (fun i => bool_decide (i = id)) l2).
Proof.
  induction 1 as [| x l l' _ IH | x y l | l l' l'' _ IH1 _ IH2]; simpl.
  - done.
  - destruct (bool_decide (x = id)); simpl; by rewrite IH.
  - by destruct (bool_decide (x = id)), (bool_decide (y = id)).
  - by rewrite IH1.
Qed.

Lemma occurrences_map (getRowId : Row -> RowId) id rows :
  length (List.filter (fun i => bool_decide (i = id)) (map getRowId rows)) =
  length (List.filter (fun r => bool_decide (getRowId r = id)) rows).
Proof.
  induction rows as [| r rows IH]; simpl; [done |].
  destruct (bool_decide (getRowId r = id)); simpl; by rewrite IH.
Qed.

End SortingFacts.

(** C2.  The comparator returns [1 * direction] when the left value is
    [null] or [undefined], so a descending descriptor turns the comment's
    "nulls last" into nulls first.  With the rows [{id: 1, age: null}] and
    [{id: 2, age: 5}] and the sort [age] descending, the comparator puts
    row 1 before row 2, and [rowOrder] becomes [1, 2], the row without an
    age first; under the ascending sort it is [2, 1]. *)
Theorem nulls_first_when_descending (js_lt : JsVal -> JsVal -> bool) :
  let st := setData js_lt rows_with_null by_id (initialState []) in
  let asc := toggleSort js_lt "age" false st in
  let desc := toggleSort js_lt "age" false asc in
  sort desc = [ {| sd_columnId := "age"; sd_direction := Desc |} ] /\
  compareRows js_lt (rowMap desc) (sort desc) (RNum 1) (RNum 2) = -1 /\
  compareRows js_lt (rowMap desc) (sort desc) (RNum 2) (RNum 1) = 1 /\
  rowOrder asc = [RNum 2; RNum 1] /\
  rowOrder desc = [RNum 1; RNum 2].
Proof. cbv zeta. repeat split; by vm_compute. Qed.

(** C8.  After [setData (rows, getRowId)], [rowMap] holds for every id the
    last row of the input bearing it; the [rowOrder] built by the loop is
    the list of the rows' ids, one entry per row, which is the resulting
    [rowOrder] when no sort is active; and in every case the resulting
    [rowOrder] contains an id as many times as the input has rows with
    it. *)
Theorem setData_duplicate_ids (js_lt : JsVal -> JsVal -> bool)
    (rows : list Row) (getRowId : Row -> RowId) (prev : GridState) (id : RowId) :
  let next := setData js_lt rows getRowId prev in
  let bearing := List.filter (fun r => bool_decide (getRowId r = id)) rows in
  rowMap next !! id = last bearing /\
  snd (build_rows rows getRowId) = map getRowId rows /\
  rowOrder (setData js_lt rows getRowId (with_sort [] prev)) =
    map getRowId rows /\
  length (List.filter (fun i => bool_decide (i = id)) (rowOrder next)) =
    length bearing.
Proof.
  cbv zeta. destruct (build_rows_spec getRowId rows id) as [Hm Ho].
  repeat split.
  - by rewrite setData_rowMap.
  - done.
  - unfold setData. destruct (build_rows rows getRowId) as [m o].
    simpl in *. by subst o.
  - rewrite (occurrences_perm id _ _ (setData_rowOrder_perm js_lt _ _ _)).
    apply occurrences_map.
Qed.

Example setData_same_id :
  let next := setData prim_lt rows_same_id by_id (initialState []) in
  rowMap next !! RNum 7 = Some (person 7 (VNum 2)) /\
  rowOrder next = [RNum 7; RNum 7].
Proof. cbv zeta. split; by vm_compute. Qed.

(** C10.  When the column's descriptor is descending, [toggleSort] in
    single mode empties the sort, and the resulting [rowOrder] is the one
    before the call. *)
Theorem toggleSort_unsorted_keeps_order (js_lt : JsVal -> JsVal -> bool)
    (columnId : string) (prev : GridState) (e : SortDescriptor) :
  List.find (fun s => bool_decide (sd_columnId s = columnId)) (sort prev)
    = Some e ->
  sd_direction e = Desc ->
  sort (toggleSort js_lt columnId false prev) = [] /\
  rowOrder (toggleSort js_lt columnId false prev) = rowOrder prev.
Proof.
  intros Hfind Hdir. unfold toggleSort. rewrite Hfind, Hdir. simpl.
  split; [done |]. by rewrite sortRows_no_sort.
Qed.

(** The third click on a column: the order stays the descending one,
    [2, 1, 3], and the insertion order [1, 2, 3] does not come back. *)
Lemma toggleSort_unsorted_keeps_order_witness :
  let prev := loaded rows_by_age 2 in
  let next := toggleSort prim_lt "age" false prev in
  sort prev = [ {| sd_columnId := "age"; sd_direction := Desc |} ] /\
  (sort next = [] /\ rowOrder next = rowOrder prev) /\
  rowOrder next = [RNum 2; RNum 1; RNum 3] /\
  rowOrder (loaded rows_by_age 0) = [RNum 1; RNum 2; RNum 3].
Proof.
  cbv zeta. split; [by vm_compute |]. split.
  - apply (toggleSort_unsorted_keeps_order prim_lt "age"
             (loaded rows_by_age 2)
             {| sd_columnId := "age"; sd_direction := Desc |});
      by vm_compute.
  - split; by vm_compute.
Defined.

(** ** Column visibility *)

Lemma toggleColumnVisibility_effect columnId prev :
  effectively_visible (toggleColumnVisibility columnId prev) columnId =
  js_not (columnVisibility prev !! columnId).
Proof.
  unfold effectively_visible, toggleColumnVisibility, is_visible. simpl.
  rewrite lookup_insert_eq.
  by destruct (columnVisibility prev !! columnId) as [[|] |].
Qed.

(** A column with an explicit entry is flipped. *)
Lemma toggleColumnVisibility_explicit columnId prev b :
  columnVisibility prev !! columnId = Some b ->
  effectively_visible (toggleColumnVisibility columnId prev) columnId =
  negb (effectively_visible prev columnId).
Proof.
  intros Hb. rewrite toggleColumnVisibility_effect.
  unfold effectively_visible, is_visible. rewrite Hb. by destruct b.
Qed.

(** C9.  [toggleColumnVisibility] stores [!columnVisibility[columnId]],
    and the negation of a missing entry is [true].  A column with no entry
    is shown by the layout engine, and after the toggle it has the entry
    [true] and is still shown: in the snapshot with the single column
    [name] and an empty visibility map, the column is laid out before and
    after the call. *)
Theorem toggle_absent_column_stays_visible :
  (forall prev columnId,
     columnVisibility (toggleColumnVisibility columnId prev) !! columnId =
       Some (js_not (columnVisibility prev !! columnId)) /\
     effectively_visible (toggleColumnVisibility columnId prev) columnId =
       js_not (columnVisibility prev !! columnId)) /\
  js_not None = true /\
  columnVisibility one_column_state !! "name" = None /\
  effectively_visible one_column_state "name" = true /\
  effectively_visible (toggleColumnVisibility "name" one_column_state) "name"
    = true /\
  layout_ids one_column_state 800 = ["name"] /\
  layout_ids (toggleColumnVisibility "name" one_column_state) 800 = ["name"].
Proof.
  split.
  - intros prev columnId. split.
    + unfold toggleColumnVisibility. simpl. apply lookup_insert_eq.
    + apply toggleColumnVisibility_effect.
  - repeat split; by vm_compute.
Qed.

(** ** Editing *)

(** C7.  [commitEdit] returns the snapshot it was given when no edit is
    active; when the edited row is not in [rowMap] it clears [editingCell]
    and keeps [rowMap]; otherwise it clears [editingCell] and replaces, in
    [rowMap], the entry of the edited row by a row that has the edit's
    value in the edited field and the old row's value in every other field,
    all other entries being kept. *)
Theorem commitEdit_cases (prev : GridState) :
  (editingCell prev = None -> commitEdit prev = prev) /\
  (forall e,
     editingCell prev = Some e -> rowMap prev !! ed_rowId e = None ->
     editingCell (commitEdit prev) = None /\
     rowMap (commitEdit prev) = rowMap prev) /\
  (forall e row,
     editingCell prev = Some e -> rowMap prev !! ed_rowId e = Some row ->
     editingCell (commitEdit prev) = None /\
     rowMap (commitEdit prev) =
       <[ed_rowId e := <[ed_colId e := ed_value e]> row]> (rowMap prev) /\
     (exists newRow,
        rowMap (commitEdit prev) !! ed_rowId e = Some newRow /\
        get_field newRow (ed_colId e) = ed_value e /\
        forall c, c ≠ ed_colId e -> newRow !! c = row !! c) /\
     (forall id, id ≠ ed_rowId e ->
                 rowMap (commitEdit prev) !! id = rowMap prev !! id)).
Proof.
  unfold commitEdit. split; [| split].
  - by intros ->.
  - intros e -> ->. done.
  - intros e row -> ->. simpl. repeat split.
    + exists (<[ed_colId e := ed_value e]> row). repeat split.
      * apply lookup_insert_eq.
      * unfold get_field. by rewrite lookup_insert_eq.
      * intros c Hc. by apply lookup_insert_ne.
    + intros id Hid. by apply lookup_insert_ne.
Qed.

Lemma commitEdit_cases_witness :
  commitEdit (loaded rows_by_age 0) = loaded rows_by_age 0 /\
  (editingCell (commitEdit stale_editing_state) = None /\
   rowMap (commitEdit stale_editing_state) = rowMap stale_editing_state) /\
  (editingCell (commitEdit editing_state) = None /\
   rowMap (commitEdit editing_state) !! RNum 1 = Some (person 1 (VStr "x")) /\
   rowMap (commitEdit editing_state) !! RNum 2 = Some (person 2 (VNum 3))).
Proof.
  split; [| split].
  - apply (commitEdit_cases (loaded rows_by_age 0)). by vm_compute.
  - apply (proj1 (proj2 (commitEdit_cases stale_editing_state))
             {| ed_rowId := RNum 9; ed_colId := "age"; ed_value := VStr "x";
                ed_originalValue := VNum 2; ed_isSaving := false;
                ed_error := None |}); by vm_compute.
  - destruct (proj2 (proj2 (commitEdit_cases editing_state))
                {| ed_rowId := RNum 1; ed_colId := "age"; ed_value := VStr "x";
                   ed_originalValue := VNum 2; ed_isSaving := false;
                   ed_error := None |}
                (person 1 (VNum 2)) eq_refl eq_refl)
      as (Hedit & Hmap & _ & Hother).
    split; [exact Hedit |]. split.
    + rewrite Hmap. by vm_compute.
    + rewrite (Hother (RNum 2)); [by vm_compute | discriminate].
Defined.

Lemma message_or_default_nonempty message :
  message_or_default message ≠ EmptyString.
Proof.
  unfold message_or_default. destruct message as [m |]; [| done].
  by case_bool_decide.
Qed.

(** Let an edit be active on a cell whose row exists, and let [onCellEdit]
    fail with a reason whose [message] can be read.  After [commit] has run
    [commitEdit] and then, in its failure handler, [updateRow] with the
    captured field value, [startEdit] with the attempted value and
    [setEditError], the row's field reads as it did before the edit and the
    row's other fields are the old ones; [editingCell] is set, on the same
    cell, with [value] the attempted value, [isSaving] false and [error]
    the non-empty message. *)
Lemma edit_rollback (onCellEdit : CellEdit -> EditOutcome)
    (st : GridState) (e : EditingState) (row : Row) (message : option string) :
  editingCell st = Some e ->
  rowMap st !! ed_rowId e = Some row ->
  onCellEdit {| ce_rowId := ed_rowId e; ce_colId := ed_colId e;
                ce_value := ed_value e |} = Rejected message ->
  let st' := commit (Some onCellEdit) st in
  (exists row',
     rowMap st' !! ed_rowId e = Some row' /\
     get_field row' (ed_colId e) = get_field row (ed_colId e) /\
     forall c, c ≠ ed_colId e -> row' !! c = row !! c) /\
  (exists e',
     editingCell st' = Some e' /\
     ed_rowId e' = ed_rowId e /\
     ed_colId e' = ed_colId e /\
     ed_value e' = ed_value e /\
     ed_isSaving e' = false /\
     ed_error e' = Some (message_or_default message) /\
     message_or_default message ≠ EmptyString).
Proof.
  intros Hedit Hrow Hfail. cbv zeta.
  unfold commit. rewrite Hedit, Hrow, Hfail.
  unfold commitEdit. rewrite Hedit, Hrow.
  unfold updateRow. simpl. rewrite lookup_insert_eq. simpl. split.
  - eexists. split; [apply lookup_insert_eq |]. split.
    + unfold get_field. rewrite lookup_union_l'; [| by rewrite lookup_singleton_eq].
      by rewrite lookup_singleton_eq.
    + intros c Hc. rewrite lookup_union_r by (by apply lookup_singleton_ne).
      by apply lookup_insert_ne.
  - eexists. repeat split. apply message_or_default_nonempty.
Qed.

(** The edit of row 1's age from [2] to ["x"], rejected with the message
    ["not a number"]: the age is [2] again and the editor is open on ["x"]. *)
Lemma edit_rollback_witness :
  let st' := commit (Some (reject_with "not a number")) editing_state in
  rowMap editing_state !! RNum 1 = Some (person 1 (VNum 2)) /\
  rowMap (commitEdit editing_state) !! RNum 1 = Some (person 1 (VStr "x")) /\
  (exists row',
     rowMap st' !! RNum 1 = Some row' /\
     get_field row' "age" = VNum 2 /\
     forall c, c ≠ "age"%string -> row' !! c = person 1 (VNum 2) !! c) /\
  (exists e',
     editingCell st' = Some e' /\
     ed_rowId e' = RNum 1 /\
     ed_colId e' = "age"%string /\
     ed_value e' = VStr "x" /\
     ed_isSaving e' = false /\
     ed_error e' = Some "not a number"%string /\
     "not a number"%string ≠ EmptyString).
Proof.
  cbv zeta. split; [by vm_compute |]. split; [by vm_compute |].
  exact (edit_rollback (reject_with "not a number") editing_state
           {| ed_rowId := RNum 1; ed_colId := "age"; ed_value := VStr "x";
              ed_originalValue := VNum 2; ed_isSaving := false;
              ed_error := None |}
           (person 1 (VNum 2)) (Some "not a number"%string)
           eq_refl eq_refl eq_refl).
Defined.

(** C1.  When [onCellEdit] fails with no reason (the reason is [undefined]
    or [null]), the failure handler of [commit] stops at [e.message],
    after [updateRow] and [startEdit] and before [setEditError].  On the
    edit of row 1's age from [2] to ["x"]: the age is [2] again and the
    editor is open on ["x"], but [error] is [null], where the handler is
    meant to re-open the editor with an error.  In every snapshot with an
    active edit, such a failure leaves [editingCell] with no error. *)
Theorem rollback_without_reason_sets_no_error :
  let st' := commit (Some reject_without_reason) editing_state in
  rowMap editing_state !! RNum 1 = Some (person 1 (VNum 2)) /\
  rowMap (commitEdit editing_state) !! RNum 1 = Some (person 1 (VStr "x")) /\
  rowMap st' !! RNum 1 = Some (person 1 (VNum 2)) /\
  editingCell st' =
    Some {| ed_rowId := RNum 1; ed_colId := "age"; ed_value := VStr "x";
            ed_originalValue := VStr "x"; ed_isSaving := false;
            ed_error := None |} /\
  forall st,
    match editingCell st with
    | Some e =>
        editingCell (commit (Some reject_without_reason) st) =
        Some {| ed_rowId := ed_rowId e; ed_colId := ed_colId e;
                ed_value := ed_value e; ed_originalValue := ed_value e;
                ed_isSaving := false; ed_error := None |}
    | None => editingCell (commit (Some reject_without_reason) st) = None
    end.
Proof.
  cbv zeta.
  split; [by vm_compute |]. split; [by vm_compute |].
  split; [by vm_compute |]. split; [by vm_compute |].
  intros st. unfold commit.
  destruct (editingCell st) as [e |] eqn:Hedit; [reflexivity | exact Hedit].
Qed.

(** ** Notification *)

Lemma evolves_refl e : evolves e e.
Proof. intros j x Hx. by left. Qed.

Lemma evolves_trans e1 e2 e3 : evolves e1 e2 -> evolves e2 e3 -> evolves e1 e3.
Proof.
  intros H12 H23 j x Hx.
  destruct (H12 j x Hx) as [H | H]; destruct (H23 _ _ H) as [H' | H']; auto.
Qed.

Lemma evolves_empty e1 e2 j :
  evolves e1 e2 -> e1 !! j = Some None -> e2 !! j = Some None.
Proof. intros H Hj. by destruct (H j None Hj). Qed.

Lemma evolves_full e1 e2 j x l :
  evolves e1 e2 -> e1 !! j = Some x -> e2 !! j = Some (Some l) -> x = Some l.
Proof. intros H Hj Hl. destruct (H j x Hj); congruence. Qed.

Lemma set_add_evolves l e : evolves e (set_add l e).
Proof.
  unfold set_add. case_bool_decide; [apply evolves_refl |].
  intros j x Hx. left. by apply lookup_app_l_Some.
Qed.

Lemma set_delete_evolves l e : evolves e (set_delete l e).
Proof.
  intros j x Hx. unfold set_delete. rewrite list_lookup_fmap, Hx. simpl.
  case_bool_decide; auto.
Qed.

Lemma run_ops_evolves ops : forall e, evolves e (run_ops ops e).
Proof.
  induction ops as [| op ops IH]; intros e; [apply evolves_refl |].
  simpl. eapply evolves_trans; [| apply IH].
  destruct op; [apply set_add_evolves | apply set_delete_evolves].
Qed.

Lemma set_delete_absent l e : Some l ∉ set_delete l e.
Proof.
  unfold set_delete. intros Hin. apply list_elem_of_fmap in Hin as (x & Hx & _).
  case_bool_decide; congruence.
Qed.

(** Operations that do not subscribe [b] do not bring [b] into the set. *)
Lemma run_ops_absent b ops : forall e,
  Some b ∉ e -> Subscribe b ∉ ops -> Some b ∉ run_ops ops e.
Proof.
  induction ops as [| op ops IH]; intros e He Hops; [done |].
  simpl. apply IH.
  - destruct op as [l | l]; simpl.
    + unfold set_add. case_bool_decide; [done |].
      rewrite elem_of_app, list_elem_of_singleton.
      intros [Hin | [= ->]]; [done |]. apply Hops. by left.
    + unfold set_delete. intros Hin.
      apply list_elem_of_fmap in Hin as (x & Hx & Hin).
      case_bool_decide; [done |]. subst x. done.
  - intros Hin. apply Hops. by right.
Qed.

Section NotifyFacts.

Variable body : nat -> GridState -> list SetOp.
Variable s : GridState.

Lemma forEach_evolves fuel : forall entries index entries' called,
  forEach body s fuel entries index = Some (entries', called) ->
  evolves entries entries'.
Proof.
  induction fuel as [| fuel IH]; intros entries index entries' called; [done |].
  simpl. destruct (entries !! index) as [[l |] |] eqn:Hidx.
  - destruct (forEach _ _ _ _ _) as [[e c] |] eqn:Hrec; [| done].
    intros [= <- <-]. eapply evolves_trans; [apply run_ops_evolves |].
    eapply IH, Hrec.
  - apply IH.
  - intros [= <- <-]. apply evolves_refl.
Qed.

(** A listener in a slot that the walk still has to pass, and that is
    there when the walk ends, is called. *)
Lemma forEach_calls_remaining fuel : forall entries index entries' called,
  forEach body s fuel entries index = Some (entries', called) ->
  forall j l, (index <= j)%nat -> entries' !! j = Some (Some l) -> l ∈ called.
Proof.
  induction fuel as [| fuel IH]; intros entries index entries' called; [done |].
  simpl. destruct (entries !! index) as [[a |] |] eqn:Hidx.
  - destruct (forEach _ _ _ _ _) as [[e c] |] eqn:Hrec; [| done].
    intros [= <- <-] j l Hj Hl.
    destruct (decide (j = index)) as [-> | Hne].
    + pose proof (forEach_evolves _ _ _ _ _ Hrec) as Hev.
      pose proof (evolves_trans _ _ _ (run_ops_evolves (body a s) entries) Hev)
        as Hev'.
      pose proof (evolves_full _ _ _ _ _ Hev' Hidx Hl) as [= ->]. by left.
    + right. eapply (IH _ _ _ _ Hrec j); [lia | done].
  - intros Hrec j l Hj Hl.
    destruct (decide (j = index)) as [-> | Hne].
    + pose proof (evolves_empty _ _ _ (forEach_evolves _ _ _ _ _ Hrec) Hidx).
      congruence.
    + eapply (IH _ _ _ _ Hrec j); [lia | done].
  - intros [= <- <-] j l Hj Hl.
    apply lookup_ge_None in Hidx. apply lookup_lt_Some in Hl. lia.
Qed.

(** A listener that is not in the set and that nobody subscribes is not
    called. *)
Lemma forEach_skips_absent b fuel : forall entries index entries' called,
  Some b ∉ entries ->
  (forall c, Subscribe b ∉ body c s) ->
  forEach body s fuel entries index = Some (entries', called) ->
  b ∉ called.
Proof.
  induction fuel as [| fuel IH]; intros entries index entries' called Hb Hsub;
    [done |].
  simpl. destruct (entries !! index) as [[a |] |] eqn:Hidx.
  - destruct (forEach _ _ _ _ _) as [[e c] |] eqn:Hrec; [| done].
    intros [= <- <-]. rewrite not_elem_of_cons. split.
    + intros ->. apply Hb. eapply list_elem_of_lookup_2, Hidx.
    + eapply IH; [| done | apply Hrec]. by apply run_ops_absent.
  - by apply IH.
  - intros [= <- <-]. apply not_elem_of_nil.
Qed.

(** When the listeners in the set leave it alone, the walk calls those in
    the slots from [index] on, once each and in order, and ends. *)
Lemma forEach_passive entries :
  (forall l, Some l ∈ entries -> body l s = []) ->
  forall fuel index,
    (length entries - index < fuel)%nat ->
    forEach body s fuel entries index =
    Some (entries, registered (drop index entries)).
Proof.
  intros Hpassive.
  induction fuel as [| fuel IH]; intros index Hfuel; [lia |].
  simpl. destruct (entries !! index) as [[a |] |] eqn:Hidx.
  - rewrite (Hpassive a) by (eapply list_elem_of_lookup_2, Hidx). simpl.
    pose proof (lookup_lt_Some _ _ _ Hidx).
    rewrite IH by lia. by rewrite (drop_S _ _ _ Hidx).
  - pose proof (lookup_lt_Some _ _ _ Hidx).
    rewrite IH by lia. by rewrite (drop_S _ _ _ Hidx).
  - apply lookup_ge_None in Hidx. by rewrite drop_ge.
Qed.

End NotifyFacts.

(** C4, as the code has it.  [notify] walks the live listener set.
    - When the registered listeners leave the set alone, the pass calls
      exactly the listeners registered when it begins, once each, in the
      order of subscription, and the set is unchanged.
    - In a pass that ends, every listener registered at the end has been
      called in it: a listener subscribed during the pass and still
      registered is called in that same pass.
    - When the walk reaches a listener whose call leaves [b] out of the
      set, and no listener subscribes [b], then [b] is not called in the
      rest of the pass: a listener unsubscribed before its turn is
      skipped. *)
Theorem notify_walks_live_set (body : nat -> GridState -> list SetOp) :
  (forall fuel store,
     (forall l, Some l ∈ listeners store -> body l (state store) = []) ->
     (length (listeners store) < fuel)%nat ->
     notify body fuel store = Some (store, registered (listeners store))) /\
  (forall fuel store store' called,
     notify body fuel store = Some (store', called) ->
     forall l, Some l ∈ listeners store' -> l ∈ called) /\
  (forall s fuel entries index a b entries' called,
     entries !! index = Some (Some a) ->
     Some b ∉ run_ops (body a s) entries ->
     (forall c, Subscribe b ∉ body c s) ->
     forEach body s (S fuel) entries index = Some (entries', called) ->
     exists rest, called = a :: rest /\ b ∉ rest).
Proof.
  split; [| split].
  - intros fuel [st entries] Hpassive Hfuel. unfold notify. simpl in *.
    rewrite (forEach_passive body st entries Hpassive) by lia.
    by rewrite drop_0.
  - intros fuel store store' called. unfold notify.
    destruct (forEach _ _ _ _ _) as [[e c] |] eqn:Hrec; [| done].
    intros [= <- <-] l Hl. simpl in Hl.
    apply list_elem_of_lookup in Hl as [j Hj].
    eapply (forEach_calls_remaining _ _ _ _ _ _ _ Hrec j); [lia | done].
  - intros s fuel entries index a b entries' called Hidx Hgone Hsub.
    simpl. rewrite Hidx.
    destruct (forEach _ _ _ _ _) as [[e c] |] eqn:Hrec; [| done].
    intros [= <- <-]. exists c. split; [done |].
    eapply forEach_skips_absent; [apply Hgone | apply Hsub | apply Hrec].
Qed.

(** Listeners 0 and 1, both passive: both are called, in order.  Listener 0
    subscribing listener 1: listener 1 is called in the same pass.
    Listener 0 unsubscribing listener 1: listener 1 is not called. *)
Lemma notify_walks_live_set_witness :
  notify passive_body 3 (store_with [0; 1]%nat)
    = Some (store_with [0; 1]%nat, [0; 1]%nat) /\
  (notify subscribing_body 3 (store_with [0%nat])
     = Some (store_with [0; 1]%nat, [0; 1]%nat) /\
   1%nat ∈ [0; 1]%nat) /\
  (exists rest, [0%nat] = 0%nat :: rest /\ 1%nat ∉ rest).
Proof.
  split; [| split].
  - apply (proj1 (notify_walks_live_set passive_body) 3%nat
             (store_with [0; 1]%nat)).
    + reflexivity.
    + vm_compute. lia.
  - split; [by vm_compute |].
    apply (proj1 (proj2 (notify_walks_live_set subscribing_body)) 3%nat
             (store_with [0%nat]) (store_with [0; 1]%nat) [0; 1]%nat).
    + by vm_compute.
    + right. left.
  - apply (proj2 (proj2 (notify_walks_live_set unsubscribing_body))
             (initialState []) 2%nat [Some 0; Some 1]%nat 0%nat 0%nat 1%nat
             [Some 0%nat; None]).
    + reflexivity.
    + vm_compute. intros Hin.
      apply elem_of_cons in Hin as [[=] | Hin].
      apply elem_of_cons in Hin as [[=] | Hin].
      by apply not_elem_of_nil in Hin.
    + intros [| c] Hin; simpl in Hin.
      * apply list_elem_of_singleton in Hin. discriminate.
      * by apply not_elem_of_nil in Hin.
    + by vm_compute.
Defined.

(** C4 as stated fails.  With listener 0 registered and subscribing
    listener 1 when called, the pass calls 0 and then 1, which was not
    registered when the pass began.  With listeners 0 and 1 registered and
    listener 0 unsubscribing listener 1 when called, the pass calls 0 only,
    although 1 was registered when the pass began and had not been called.
    So the listeners called are not, in general, those registered when the
    pass begins. *)
Lemma listener_set_not_fixed :
  (registered (listeners (store_with [0%nat])) = [0%nat] /\
   notify subscribing_body 3 (store_with [0%nat])
     = Some (store_with [0; 1]%nat, [0; 1]%nat)) /\
  (registered (listeners (store_with [0; 1]%nat)) = [0; 1]%nat /\
   notify unsubscribing_body 3 (store_with [0; 1]%nat)
     = Some ({| state := initialState [];
                listeners := [Some 0%nat; None] |}, [0%nat])) /\
  ~ (forall (body : nat -> GridState -> list SetOp) fuel store store' called,
       notify body fuel store = Some (store', called) ->
       forall l, l ∈ called <-> l ∈ registered (listeners store)).
Proof.
  split; [split; by vm_compute |].
  split; [split; by vm_compute |].
  intros Hclaim.
  assert (notify subscribing_body 3 (store_with [0%nat])
          = Some (store_with [0; 1]%nat, [0; 1]%nat)) as Hpass by by vm_compute.
  pose proof (proj1 (Hclaim _ _ _ _ _ Hpass 1%nat)) as Hin.
  assert (1%nat ∈ [0%nat]) as Hbad by (apply Hin; right; left).
  apply list_elem_of_singleton in Hbad. discriminate.
Qed.

(** * Further properties *)

(** ** Row virtualizer: bounds, coverage, tiling *)

Lemma calculateRange_items o :
  count o ≠ 0 ->
  items (calculateRange o) =
  make_items (estimateSize o 0) (startIndex (calculateRange o))
             (endIndex (calculateRange o)).
Proof.
  intros Hc. unfold calculateRange.
  destruct (Z.eqb_spec (count o) 0); [done |]. reflexivity.
Qed.

Lemma calculateRange_indices (o : VirtualizerOptions) :
  Forall (fun it => 0 <= vi_index it <= count o - 1 /\
                    startIndex (calculateRange o) <= vi_index it
                      <= endIndex (calculateRange o))
         (items (calculateRange o)).
Proof.
  destruct (Z.eq_dec (count o) 0) as [Hc | Hc].
  - unfold calculateRange. rewrite Hc. simpl. constructor.
  - rewrite calculateRange_items by done.
    eapply Forall_impl; [apply make_items_indices |].
    intros it Hit. split; [| done].
    revert Hit. unfold calculateRange.
    destruct (Z.eqb_spec (count o) 0); [done |]. simpl. lia.
Qed.

(** Whatever the scroll offset and the container size, every emitted item
    has an index between [0] and [count - 1] and between the returned
    [startIndex] and [endIndex]. *)
Theorem calculateRange_items_in_bounds (o : VirtualizerOptions) :
  estimateSize o 0 ≠ 0 ->
  Forall (fun it => 0 <= vi_index it <= count o - 1 /\
                    startIndex (calculateRange o) <= vi_index it
                      <= endIndex (calculateRange o))
         (items (calculateRange o)).
Proof. intros _. apply calculateRange_indices. Qed.

Lemma calculateRange_items_in_bounds_witness :
  Forall (fun it => 0 <= vi_index it <= 10 - 1 /\ 0 <= vi_index it <= 9)
         (items (calculateRange (fixed_options 10 20 30 10 (Some 5)))).
Proof.
  apply (calculateRange_items_in_bounds (fixed_options 10 20 30 10 (Some 5))).
  simpl. lia.
Defined.

(** X1.  Every row that intersects the viewport is emitted: a row [i] of the
    data whose span [[i * itemSize, (i + 1) * itemSize)] meets
    [(scrollOffset, scrollOffset + containerSize)] lies between the
    returned indices and has its item in the result. *)
Theorem calculateRange_covers_viewport (o : VirtualizerOptions) (i : Z) :
  let itemSize := estimateSize o 0 in
  let r := calculateRange o in
  0 < itemSize ->
  0 <= default 5 (overscan o) ->
  0 <= i <= count o - 1 ->
  i * itemSize < getScrollOffset o + getContainerSize o ->
  getScrollOffset o < (i + 1) * itemSize ->
  startIndex r <= i <= endIndex r /\
  {| vi_index := i; vi_start := i * itemSize; vi_size := itemSize;
     vi_end := (i + 1) * itemSize |} ∈ items r.
Proof.
  cbv zeta. intros Hs Hov Hi Hlo Hhi.
  assert (count o ≠ 0) as Hc by lia.
  assert (startIndex (calculateRange o) <= i <= endIndex (calculateRange o))
    as Hrange.
  { unfold calculateRange. destruct (Z.eqb_spec (count o) 0); [done |]. simpl.
    assert (floor_div (getScrollOffset o) (estimateSize o 0) <= i).
    { unfold floor_div. Z.to_euclidean_division_equations. nia. }
    assert (i <= ceil_div (getScrollOffset o + getContainerSize o)
                          (estimateSize o 0)).
    { unfold ceil_div. Z.to_euclidean_division_equations. nia. }
    lia. }
  split; [done |].
  rewrite calculateRange_items by done. unfold make_items.
  apply (list_elem_of_fmap_2'
           (fun i0 => {| vi_index := i0; vi_start := i0 * estimateSize o 0;
                         vi_size := estimateSize o 0;
                         vi_end := (i0 + 1) * estimateSize o 0 |})
           _ i); [| done].
  apply elem_of_seqZ. lia.
Qed.

Lemma calculateRange_covers_viewport_witness :
  let r := calculateRange (fixed_options 1000 1000 500 50 (Some 2)) in
  startIndex r <= 25 <= endIndex r /\
  {| vi_index := 25; vi_start := 1250; vi_size := 50; vi_end := 1300 |}
    ∈ items r.
Proof.
  apply (calculateRange_covers_viewport
           (fixed_options 1000 1000 500 50 (Some 2)) 25); simpl; lia.
Defined.

(** X2.  The items tile the range: for a non-empty grid they are the indices
    from [startIndex] to [endIndex] in order, each of height [itemSize],
    each starting where the one before ends. *)
Theorem calculateRange_items_tile (o : VirtualizerOptions) :
  count o ≠ 0 ->
  estimateSize o 0 ≠ 0 ->
  let r := calculateRange o in
  map vi_index (items r) = seqZ (startIndex r) (endIndex r - startIndex r + 1) /\
  Forall (fun it => vi_size it = estimateSize o 0 /\
                    vi_end it = vi_start it + vi_size it) (items r) /\
  forall k a b,
    items r !! k = Some a -> items r !! S k = Some b ->
    vi_index b = vi_index a + 1 /\ vi_start b = vi_end a.
Proof.
  intros Hc _. cbv zeta. rewrite calculateRange_items by done.
  set (lo := startIndex _). set (hi := endIndex _). unfold make_items.
  split; [| split].
  - rewrite <- list_fmap_compose. simpl. apply list_fmap_id.
  - apply Forall_map, Forall_forall. intros i _. simpl. split; lia.
  - intros k a b Ha Hb.
    rewrite list_lookup_fmap in Ha, Hb.
    destruct (seqZ lo (hi - lo + 1) !! k) as [i |] eqn:Hi; [| done].
    destruct (seqZ lo (hi - lo + 1) !! S k) as [j |] eqn:Hj; [| done].
    apply lookup_seqZ in Hi as [-> _]. apply lookup_seqZ in Hj as [-> _].
    simpl in Ha, Hb. injection Ha as <-. injection Hb as <-. simpl.
    split; lia.
Qed.

Lemma calculateRange_items_tile_witness :
  let r := calculateRange (fixed_options 1000 1000 500 50 (Some 2)) in
  map vi_index (items r) = seqZ 18 15 /\
  Forall (fun it => vi_size it = 50 /\ vi_end it = vi_start it + vi_size it)
         (items r) /\
  forall k a b,
    items r !! k = Some a -> items r !! S k = Some b ->
    vi_index b = vi_index a + 1 /\ vi_start b = vi_end a.
Proof.
  apply (calculateRange_items_tile (fixed_options 1000 1000 500 50 (Some 2)));
    simpl; lia.
Defined.

(** X3.  The number of emitted items is bounded by the window, not by the row
    count: at most [containerSize / itemSize + 2 * overscan + 3]. *)
Theorem calculateRange_item_count (o : VirtualizerOptions) :
  0 < estimateSize o 0 ->
  0 <= getContainerSize o ->
  0 <= default 5 (overscan o) ->
  Z.of_nat (length (items (calculateRange o))) <=
  getContainerSize o / estimateSize o 0 + 2 * default 5 (overscan o) + 3.
Proof.
  intros Hs Hcs Hov. unfold calculateRange.
  destruct (Z.eqb_spec (count o) 0) as [_ | _]; simpl.
  - assert (0 <= getContainerSize o / estimateSize o 0)
      by (apply Z.div_pos; lia).
    lia.
  - rewrite length_make_items. unfold floor_div, ceil_div.
    set (ov := default 5 (overscan o)) in *.
    set (so := getScrollOffset o). set (cs := getContainerSize o) in *.
    set (sz := estimateSize o 0) in *.
    assert (- ((- (so + cs)) / sz) <= so / sz + cs / sz + 2) as Hceil.
    { Z.to_euclidean_division_equations. nia. }
    assert (0 <= cs / sz) by (apply Z.div_pos; lia).
    assert (- ((- (so + cs)) / sz) <= cs / sz + 2 \/ 0 <= so / sz) as Hneg.
    { destruct (Z.le_gt_cases 0 so) as [Hso | Hso].
      - right. apply Z.div_pos; lia.
      - left. Z.to_euclidean_division_equations. nia. }
    lia.
Qed.

Lemma calculateRange_item_count_witness :
  Z.of_nat (length (items (calculateRange
                             (fixed_options 1000000 34999200 800 35 None)))) <=
  800 / 35 + 2 * 5 + 3.
Proof.
  apply (calculateRange_item_count
           (fixed_options 1000000 34999200 800 35 None)); simpl; lia.
Defined.

(** X4.  Scrolling further down never moves the range back up. *)
Theorem calculateRange_monotone (count scrollOffset scrollOffset' containerSize
    itemSize : Z) (ov : option Z) :
  0 < itemSize ->
  scrollOffset <= scrollOffset' ->
  let r := calculateRange
             (fixed_options count scrollOffset containerSize itemSize ov) in
  let r' := calculateRange
              (fixed_options count scrollOffset' containerSize itemSize ov) in
  startIndex r <= startIndex r' /\ endIndex r <= endIndex r'.
Proof.
  intros Hs Hle. cbv zeta. unfold calculateRange, fixed_options. simpl.
  destruct (count =? 0); simpl; [lia |].
  assert (floor_div scrollOffset itemSize <= floor_div scrollOffset' itemSize).
  { unfold floor_div. apply Z.div_le_mono; lia. }
  assert (ceil_div (scrollOffset + containerSize) itemSize <=
          ceil_div (scrollOffset' + containerSize) itemSize).
  { unfold ceil_div.
    assert ((- (scrollOffset' + containerSize)) / itemSize <=
            (- (scrollOffset + containerSize)) / itemSize)
      by (apply Z.div_le_mono; lia).
    lia. }
  lia.
Qed.

Lemma calculateRange_monotone_witness :
  let r := calculateRange (fixed_options 1000 0 500 50 (Some 2)) in
  let r' := calculateRange (fixed_options 1000 1000 500 50 (Some 2)) in
  startIndex r <= startIndex r' /\ endIndex r <= endIndex r'.
Proof.
  apply (calculateRange_monotone 1000 0 1000 500 50 (Some 2)); lia.
Defined.

(** ** The hook's [measure] *)

(** X5.  [measure] returns an ordered range within the rows at every scroll
    position, also before the content and beyond it. *)
Theorem measure_in_range_everywhere
    (count scrollTop containerHeight itemSize ov : Z) :
  1 <= count -> 0 < itemSize -> 0 <= ov -> 0 <= containerHeight ->
  let r := measure count scrollTop containerHeight itemSize ov in
  0 <= startIndex r /\ startIndex r <= endIndex r /\ endIndex r <= count - 1 /\
  Forall (fun it => startIndex r <= vi_index it <= endIndex r /\
                    vi_start it = vi_index it * itemSize /\
                    vi_end it = vi_start it + itemSize) (items r).
Proof.
  intros Hc Hs Ho Hcs. cbv zeta.
  destruct (measure_range_ok count scrollTop containerHeight itemSize ov
              Hc Hs Ho Hcs) as (H1 & H2 & H3 & H4).
  repeat split; try done.
  unfold measure. simpl. apply Forall_forall. intros it Hit.
  pose proof (proj1 (Forall_forall _ _) (make_items_indices _ _ _) it Hit).
  pose proof (proj1 (Forall_forall _ _) (make_items_geometry _ _ _) it Hit).
  simpl in *. intuition lia.
Qed.

Lemma measure_in_range_everywhere_witness :
  let r := measure 10 1000 100 10 5 in
  0 <= startIndex r /\ startIndex r <= endIndex r /\ endIndex r <= 10 - 1 /\
  Forall (fun it => startIndex r <= vi_index it <= endIndex r /\
                    vi_start it = vi_index it * 10 /\
                    vi_end it = vi_start it + 10) (items r).
Proof. apply (measure_in_range_everywhere 10 1000 100 10 5); lia. Defined.

(** X6.  While the viewport starts inside the content, [measure] and
    [calculateRange] return the same range. *)
Theorem measure_agrees_with_calculateRange
    (count scrollTop containerHeight itemSize ov : Z) :
  1 <= count -> 0 < itemSize ->
  0 <= scrollTop + containerHeight ->
  scrollTop < count * itemSize ->
  measure count scrollTop containerHeight itemSize ov =
  calculateRange
    (fixed_options count scrollTop containerHeight itemSize (Some ov)).
Proof.
  intros Hc Hs Hend Hlt. unfold measure, calculateRange, fixed_options. simpl.
  destruct (Z.eqb_spec count 0); [lia |].
  assert (floor_div scrollTop itemSize <= count - 1) as Hfl.
  { unfold floor_div. Z.to_euclidean_division_equations. nia. }
  assert (0 <= ceil_div (scrollTop + containerHeight) itemSize) as Hce.
  { unfold ceil_div. Z.to_euclidean_division_equations. nia. }
  replace (Z.max 0 (Z.min (count - 1) (floor_div scrollTop itemSize)))
    with (Z.max 0 (floor_div scrollTop itemSize)) by lia.
  replace (Z.max 0 (Z.min (count - 1)
                          (ceil_div (scrollTop + containerHeight) itemSize)))
    with (Z.min (count - 1) (ceil_div (scrollTop + containerHeight) itemSize))
    by lia.
  reflexivity.
Qed.

Lemma measure_agrees_with_calculateRange_witness :
  measure 1000 1000 500 50 2 =
  calculateRange (fixed_options 1000 1000 500 50 (Some 2)).
Proof. apply (measure_agrees_with_calculateRange 1000 1000 500 50 2); lia. Defined.

(** ** Rendering: every rendered row exists *)

Lemma array_get_in_range {A} (l : list A) (i : Z) :
  0 <= i <= Z.of_nat (length l) - 1 ->
  exists x, array_get l i = Some x /\ x ∈ l.
Proof.
  intros Hi. unfold array_get.
  destruct (Z.ltb_spec i 0); [lia |].
  destruct (lookup_lt_is_Some_2 l (Z.to_nat i)) as [x Hx]; [lia |].
  exists x. split; [done |]. eapply list_elem_of_lookup_2, Hx.
Qed.

(** X7.  In a snapshot whose [rowOrder] ids are all in [rowMap], every item of
    the range computed by [GridBody] names a row of [rowOrder], and
    [GridRow] finds its data, wherever the grid is scrolled. *)
Theorem gridBody_rows_exist (ROW_HEIGHT OVERSCAN_COUNT viewportHeight : Z)
    (s : GridState) :
  ROW_HEIGHT ≠ 0 ->
  rows_consistent s ->
  Forall (fun r => exists id row,
                     r = Some id /\ id ∈ rowOrder s /\
                     gridRow_data s r = Some row)
         (gridBody_rows ROW_HEIGHT OVERSCAN_COUNT viewportHeight s).
Proof.
  intros Hh Hcons. unfold gridBody_rows. apply Forall_map.
  eapply Forall_impl; [apply calculateRange_indices |].
  intros it [Hit _]. simpl in Hit.
  destruct (array_get_in_range (rowOrder s) (vi_index it) Hit) as (id & -> & Hin).
  destruct (proj1 (Forall_forall _ _) Hcons id Hin) as [row Hrow].
  exists id, row. simpl. auto.
Qed.

Lemma gridBody_rows_exist_witness :
  Forall (fun r => exists id row,
                     r = Some id /\ id ∈ rowOrder (loaded rows_by_age 1) /\
                     gridRow_data (loaded rows_by_age 1) r = Some row)
         (gridBody_rows 40 5 400 (loaded rows_by_age 1)).
Proof.
  apply (gridBody_rows_exist 40 5 400 (loaded rows_by_age 1)).
  - lia.
  - apply (bool_decide_unpack _). by vm_compute.
Defined.

(** ** Column layout: the pushed columns, one by one *)

Section LayoutSpec.

Variables (widths : gmap string Z) (lefts rights : list string)
          (offsets : gmap string Z) (visibleStart visibleEnd : Z).

Let walk := layout_walk widths lefts rights offsets visibleStart visibleEnd.
Let col := column_at widths lefts rights offsets visibleStart visibleEnd.

Lemma layout_walk_cons id rest index off acc :
  walk (id :: rest) index off acc =
  let next := walk rest (index + 1) (off + width_of widths id)
                   (if includes lefts id then acc + width_of widths id
                    else acc) in
  (option_list (col id index off acc) ++ fst next, snd next).
Proof.
  unfold walk, col, column_at, intersects. simpl.
  destruct (includes lefts id); [| destruct (includes rights id)]; simpl;
    try destruct (_ && _); simpl;
    by destruct (layout_walk _ _ _ _ _ _ rest _ _ _).
Qed.

Lemma layout_walk_total ids : forall index off acc,
  snd (walk ids index off acc) = off + sum_widths widths ids.
Proof.
  induction ids as [| id rest IH]; intros index off acc.
  - simpl. lia.
  - rewrite layout_walk_cons. simpl. rewrite IH. lia.
Qed.

(** The columns pushed by the walk are exactly the columns that
    [column_at] gives for the positions of [ids], at the pixel offset and
    left accumulator reached there. *)
Lemma layout_walk_elem ids : forall index off acc c,
  c ∈ fst (walk ids index off acc) <->
  exists k id,
    ids !! k = Some id /\
    col id (index + Z.of_nat k)
        (off + sum_widths widths (take k ids))
        (acc + left_widths widths lefts (take k ids)) = Some c.
Proof.
  induction ids as [| id rest IH]; intros index off acc c.
  - simpl. split; [by intros ?%not_elem_of_nil | by intros (k & id & ? & _)].
  - rewrite layout_walk_cons. simpl. rewrite elem_of_app, IH. split.
    + intros [Hhere | (k & id' & Hk & Hcol)].
      * exists 0%nat, id. split; [done |]. simpl.
        unfold left_widths. simpl.
        rewrite !Z.add_0_r.
        destruct (col id index off acc) as [c' |]; simpl in Hhere.
        -- apply list_elem_of_singleton in Hhere. by subst.
        -- by apply not_elem_of_nil in Hhere.
      * exists (S k), id'. split; [done |]. simpl.
        rewrite <- Hcol. f_equal; [lia | lia |].
        unfold left_widths. simpl.
        destruct (includes lefts id); simpl; lia.
    + intros (k & id' & Hk & Hcol). destruct k as [| k]; simpl in *.
      * left. injection Hk as <-. unfold left_widths in Hcol. simpl in Hcol.
        rewrite !Z.add_0_r in Hcol. rewrite Hcol. simpl. by left.
      * right. exists k, id'. split; [done |].
        rewrite <- Hcol. f_equal; [lia | lia |].
        unfold left_widths. simpl.
        destruct (includes lefts id); simpl; lia.
Qed.

End LayoutSpec.

Lemma calculateLayout_unfold (o : ColumnVirtualizerOptions) :
  calculateLayout o =
  let r := layout_walk (opt_columnWidths o) (leftIds o) (rightIds o)
             (rightStickyOffsets (opt_columnWidths o) (rightIds o))
             (window_start o) (window_end o) (visualOrder o) 0 0 0 in
  {| virtualColumns := fst r; totalWidth := snd r |}.
Proof.
  unfold calculateLayout, window_start, window_end. simpl.
  by destruct (layout_walk _ _ _ _ _ _ _ _ _ _).
Qed.

(** The columns of a layout, characterised: [c] is in [virtualColumns]
    exactly when it is the column [column_at] gives for some position [k]
    of the visual order, placed after the widths of the columns before it. *)
Lemma calculateLayout_elem (o : ColumnVirtualizerOptions) (c : VirtualColumn) :
  c ∈ virtualColumns (calculateLayout o) <->
  exists k id,
    visualOrder o !! k = Some id /\
    column_at (opt_columnWidths o) (leftIds o) (rightIds o)
      (rightStickyOffsets (opt_columnWidths o) (rightIds o))
      (window_start o) (window_end o) id (Z.of_nat k)
      (sum_widths (opt_columnWidths o) (take k (visualOrder o)))
      (left_widths (opt_columnWidths o) (leftIds o) (take k (visualOrder o)))
    = Some c.
Proof.
  rewrite calculateLayout_unfold. simpl. rewrite layout_walk_elem.
  split; intros (k & id & Hk & Hcol); exists k, id; (split; [done |]);
    rewrite <- Hcol; f_equal; lia.
Qed.

Lemma includes_true (l : list string) id : includes l id = true <-> id ∈ l.
Proof. unfold includes. apply bool_decide_eq_true. Qed.

Lemma elem_of_List_filter {A} (p : A -> bool) (l : list A) x :
  x ∈ List.filter p l <-> x ∈ l /\ p x = true.
Proof. rewrite !list_elem_of_In. apply filter_In. Qed.

Lemma visualOrder_visible o id :
  id ∈ visualOrder o -> is_visible (opt_columnVisibility o) id = true.
Proof.
  unfold visualOrder, leftIds, rightIds, scrollableIds.
  rewrite !elem_of_app, !elem_of_List_filter.
  intros [[_ H] | [[_ H] | [_ H]]]; try done.
  by apply andb_true_iff in H as [_ H].
Qed.

Lemma sum_widths_app widths l1 l2 :
  sum_widths widths (l1 ++ l2) = sum_widths widths l1 + sum_widths widths l2.
Proof. induction l1 as [| x l1 IH]; simpl; lia. Qed.

(** X8.  A hidden column is never laid out, pinned or not: every column of the
    result is visible and belongs to the visual order. *)
Theorem layout_only_visible (o : ColumnVirtualizerOptions) (c : VirtualColumn) :
  c ∈ virtualColumns (calculateLayout o) ->
  is_visible (opt_columnVisibility o) (vc_id c) = true /\
  vc_id c ∈ visualOrder o.
Proof.
  intros (k & id & Hk & Hcol)%calculateLayout_elem.
  unfold column_at in Hcol. destruct (_ || _); [| done].
  injection Hcol as <-. simpl.
  assert (id ∈ visualOrder o) by (eapply list_elem_of_lookup_2, Hk).
  split; [by apply visualOrder_visible | done].
Qed.

(** X9.  The total width is the sum of the widths of all visible columns, in or
    out of the window. *)
Theorem layout_totalWidth (o : ColumnVirtualizerOptions) :
  totalWidth (calculateLayout o) =
  sum_widths (opt_columnWidths o) (leftIds o)
  + sum_widths (opt_columnWidths o) (scrollableIds o)
  + sum_widths (opt_columnWidths o) (rightIds o).
Proof.
  rewrite calculateLayout_unfold. simpl. rewrite layout_walk_total.
  unfold visualOrder. rewrite !sum_widths_app. lia.
Qed.

(** X10.  Every column of the result sits at its place in the visual order: its
    index is its position there, it starts after the widths of the columns
    before it, and it is as wide as the width map says (100 when the width
    is missing or zero). *)
Theorem layout_geometry (o : ColumnVirtualizerOptions) (c : VirtualColumn) :
  c ∈ virtualColumns (calculateLayout o) ->
  exists k,
    vc_index c = Z.of_nat k /\
    visualOrder o !! k = Some (vc_id c) /\
    vc_start c = sum_widths (opt_columnWidths o) (take k (visualOrder o)) /\
    vc_size c = width_of (opt_columnWidths o) (vc_id c) /\
    vc_end c = vc_start c + vc_size c.
Proof.
  intros (k & id & Hk & Hcol)%calculateLayout_elem.
  unfold column_at in Hcol. destruct (_ || _); [| done].
  injection Hcol as <-. simpl. exists k. auto.
Qed.

(** X11.  A column of the visual order is in the result exactly when it is
    pinned or its span meets the window
    [[scrollLeft - overscan, scrollLeft + viewportWidth + overscan]]. *)
Theorem layout_renders_iff (o : ColumnVirtualizerOptions) (k : nat)
    (id : string) :
  visualOrder o !! k = Some id ->
  let start := sum_widths (opt_columnWidths o) (take k (visualOrder o)) in
  (exists c, c ∈ virtualColumns (calculateLayout o) /\ vc_index c = Z.of_nat k)
  <->
  includes (leftIds o) id || includes (rightIds o) id
  || intersects (window_start o) (window_end o) start
                (start + width_of (opt_columnWidths o) id) = true.
Proof.
  intros Hk. cbv zeta. split.
  - intros (c & (k' & id' & Hk' & Hcol)%calculateLayout_elem & Hidx).
    unfold column_at in Hcol.
    destruct (_ || _) eqn:Hcond in Hcol; [| done].
    injection Hcol as <-. simpl in Hidx.
    assert (k' = k) as -> by lia.
    rewrite Hk in Hk'. injection Hk' as <-. done.
  - intros Hcond.
    destruct (column_at (opt_columnWidths o) (leftIds o) (rightIds o)
                (rightStickyOffsets (opt_columnWidths o) (rightIds o))
                (window_start o) (window_end o) id (Z.of_nat k)
                (sum_widths (opt_columnWidths o) (take k (visualOrder o)))
                (left_widths (opt_columnWidths o) (leftIds o)
                             (take k (visualOrder o)))) as [c |] eqn:Hcol.
    + exists c. split.
      * apply calculateLayout_elem. by exists k, id.
      * unfold column_at in Hcol. rewrite Hcond in Hcol.
        by injection Hcol as <-.
    + unfold column_at in Hcol. by rewrite Hcond in Hcol.
Qed.

(** The example: [z] (60) is pinned left, [b] (100) and [c] (400) meet the
    window [[-100, 400]], [d] starts at 560 and is dropped, [h] is hidden,
    and [y] (100) and [a] (80) are pinned right at 680 and 780. *)
Example example_layout_result :
  map (fun c => (vc_index c, vc_id c, vc_start c, vc_end c, vc_isPinned c,
                 vc_stickyOffset c))
      (virtualColumns (calculateLayout example_layout)) =
  [ (0, "z"%string, 0, 60, PinLeft, 0);
    (1, "b"%string, 60, 160, PinNone, 0);
    (2, "c"%string, 160, 560, PinNone, 0);
    (4, "y"%string, 680, 780, PinRight, 80);
    (5, "a"%string, 780, 860, PinRight, 0) ] /\
  totalWidth (calculateLayout example_layout) = 860.
Proof. split; by vm_compute. Qed.

Lemma layout_only_visible_witness :
  is_visible (opt_columnVisibility example_layout) "c" = true /\
  "c"%string ∈ visualOrder example_layout.
Proof.
  apply (layout_only_visible example_layout
           {| vc_index := 2; vc_id := "c"; vc_start := 160; vc_size := 400;
              vc_end := 560; vc_isPinned := PinNone; vc_stickyOffset := 0 |}).
  apply (list_elem_of_lookup_2 _ 2%nat). by vm_compute.
Defined.

Lemma layout_geometry_witness :
  exists k,
    2 = Z.of_nat k /\
    visualOrder example_layout !! k = Some "c"%string /\
    160 = sum_widths (opt_columnWidths example_layout)
                     (take k (visualOrder example_layout)) /\
    400 = width_of (opt_columnWidths example_layout) "c" /\
    560 = 160 + 400.
Proof.
  apply (layout_geometry example_layout
           {| vc_index := 2; vc_id := "c"; vc_start := 160; vc_size := 400;
              vc_end := 560; vc_isPinned := PinNone; vc_stickyOffset := 0 |}).
  apply (list_elem_of_lookup_2 _ 2%nat). by vm_compute.
Defined.

(** Column [d], at position 3 of the visual order, is not pinned and
    starts at 560, beyond the window's end 400: it is not in the result. *)
Lemma layout_renders_iff_witness :
  (exists c, c ∈ virtualColumns (calculateLayout example_layout) /\
             vc_index c = 3) <-> false = true.
Proof.
  apply (layout_renders_iff example_layout 3%nat "d"). by vm_compute.
Defined.

Lemma List_filter_all {A} (p : A -> bool) (l : list A) :
  Forall (fun x => p x = true) l -> List.filter p l = l.
Proof.
  induction 1 as [| x l Hx _ IH]; simpl; [done |]. by rewrite Hx, IH.
Qed.

(** X12.  A column among the first [leftIds.length] of the visual order is
    flagged left-pinned, and its sticky offset is its start: left-pinned
    columns stick exactly where they are laid out. *)
Theorem layout_left_sticky (o : ColumnVirtualizerOptions) (c : VirtualColumn) :
  c ∈ virtualColumns (calculateLayout o) ->
  vc_index c < Z.of_nat (length (leftIds o)) ->
  vc_isPinned c = PinLeft /\ vc_stickyOffset c = vc_start c /\
  leftIds o !! Z.to_nat (vc_index c) = Some (vc_id c).
Proof.
  intros (k & id & Hk & Hcol)%calculateLayout_elem Hidx.
  unfold column_at in Hcol. destruct (_ || _); [| done].
  injection Hcol as <-. simpl in *.
  assert (k < length (leftIds o))%nat as Hlt by lia.
  unfold visualOrder in *.
  rewrite lookup_app_l in Hk by done.
  rewrite take_app_le by lia.
  assert (includes (leftIds o) id = true) as ->
    by (apply includes_true; eapply list_elem_of_lookup_2, Hk).
  rewrite Nat2Z.id. repeat split; [| done].
  unfold left_widths. f_equal. apply List_filter_all, Forall_forall.
  intros x Hx. apply includes_true. by apply (subseteq_take k).
Qed.

Lemma layout_left_sticky_witness :
  PinLeft = PinLeft /\ 0 = 0 /\ leftIds example_layout !! Z.to_nat 0 = Some "z"%string.
Proof.
  apply (layout_left_sticky example_layout
           {| vc_index := 0; vc_id := "z"; vc_start := 0; vc_size := 60;
              vc_end := 60; vc_isPinned := PinLeft; vc_stickyOffset := 0 |}).
  - apply (list_elem_of_lookup_2 _ 0%nat). by vm_compute.
  - by vm_compute.
Defined.

Section RightOffsets.

Variable widths : gmap string Z.

Let step : gmap string Z * Z -> string -> gmap string Z * Z :=
  fun '(m, rightAccumulator) id =>
    (<[id := rightAccumulator]> m, rightAccumulator + width_of widths id).

Lemma offsets_fold_snd l : forall m a,
  snd (foldl step (m, a) l) = a + sum_widths widths l.
Proof.
  induction l as [| x l IH]; intros m a; simpl; [lia |].
  rewrite IH. lia.
Qed.

Lemma offsets_fold_other id l : forall m a,
  id ∉ l -> fst (foldl step (m, a) l) !! id = m !! id.
Proof.
  induction l as [| x l IH]; intros m a Hid; simpl; [done |].
  apply not_elem_of_cons in Hid as [Hne Hid].
  rewrite IH by done. by apply lookup_insert_ne.
Qed.

Lemma sum_widths_reverse l : sum_widths widths (reverse l) = sum_widths widths l.
Proof.
  induction l as [| x l IH]; simpl; [done |].
  rewrite reverse_cons, sum_widths_app, IH. simpl. lia.
Qed.

(** The offset recorded for a right-pinned id is the summed width of the
    ids after its first occurrence. *)
Lemma rightStickyOffsets_lookup pre id post :
  id ∉ pre ->
  rightStickyOffsets widths (pre ++ id :: post) !! id =
  Some (sum_widths widths post).
Proof.
  intros Hid. unfold rightStickyOffsets. fold step.
  rewrite reverse_app, reverse_cons, <- app_assoc, !foldl_app.
  pose proof (offsets_fold_snd (reverse post) ∅ 0) as Hsnd.
  destruct (foldl step (∅, 0) (reverse post)) as [m1 a1]. simpl in *.
  rewrite offsets_fold_other by (by rewrite elem_of_reverse).
  rewrite lookup_insert_eq, Hsnd, sum_widths_reverse. f_equal; lia.
Qed.

End RightOffsets.

(** X13.  A column flagged right-pinned carries as sticky offset the summed
    width of the right-pinned columns after it: the last one sticks at 0,
    and the offsets grow towards the left. *)
Theorem layout_right_sticky (o : ColumnVirtualizerOptions) (c : VirtualColumn)
    (pre post : list string) :
  c ∈ virtualColumns (calculateLayout o) ->
  vc_isPinned c = PinRight ->
  rightIds o = pre ++ vc_id c :: post ->
  vc_id c ∉ pre ->
  vc_stickyOffset c = sum_widths (opt_columnWidths o) post.
Proof.
  intros (k & id & Hk & Hcol)%calculateLayout_elem Hpin Hsplit Hpre.
  unfold column_at in Hcol. destruct (_ || _); [| done].
  injection Hcol as <-. simpl in *.
  destruct (includes (leftIds o) id); [done |].
  destruct (includes (rightIds o) id); [| done].
  by rewrite Hsplit, rightStickyOffsets_lookup.
Qed.

Lemma layout_right_sticky_witness :
  80 = sum_widths (opt_columnWidths example_layout) ["a"%string].
Proof.
  apply (layout_right_sticky example_layout
           {| vc_index := 4; vc_id := "y"; vc_start := 680; vc_size := 100;
              vc_end := 780; vc_isPinned := PinRight; vc_stickyOffset := 80 |}
           [] ["a"%string]).
  - apply (list_elem_of_lookup_2 _ 3%nat). by vm_compute.
  - reflexivity.
  - by vm_compute.
  - apply not_elem_of_nil.
Defined.

(** ** Column resizing and reordering *)

(** X14.  After [resizeColumn] the column's width is [max (50, width)], at least
    50, which is also what the layout reads for it (never the default of
    100); the other columns keep their widths.  A drag of the resize handle
    to [clientX] stores [max (50, startWidth + clientX - startX)]. *)
Theorem resizeColumn_floor (columnId : string) (width : Z) (prev : GridState) :
  let next := resizeColumn columnId width prev in
  columnWidths next !! columnId = Some (Z.max 50 width) /\
  width_of (columnWidths next) columnId = Z.max 50 width /\
  50 <= width_of (columnWidths next) columnId /\
  (forall c, c ≠ columnId -> columnWidths next !! c = columnWidths prev !! c) /\
  (forall startX startWidth clientX,
     width_of (columnWidths
                 (handleMouseMove columnId startX startWidth clientX prev))
              columnId = Z.max 50 (startWidth + clientX - startX)).
Proof.
  cbv zeta.
  assert (forall w, width_of (<[columnId := Z.max 50 w]> (columnWidths prev))
                             columnId = Z.max 50 w) as Hw.
  { intros w. unfold width_of. rewrite lookup_insert_eq.
    destruct (Z.eqb_spec (Z.max 50 w) 0); [lia | done]. }
  unfold handleMouseMove, resizeColumn. simpl. repeat split.
  - apply lookup_insert_eq.
  - apply Hw.
  - rewrite Hw. lia.
  - intros c Hc. by apply lookup_insert_ne.
  - intros startX startWidth clientX. rewrite Hw. f_equal. lia.
Qed.

Lemma resizeColumn_floor_witness :
  columnWidths (resizeColumn "name" 1 one_column_state) !! "name" = Some 50 /\
  columnWidths (resizeColumn "name" 1 one_column_state) !! "age"
    = columnWidths one_column_state !! "age".
Proof.
  split.
  - apply (resizeColumn_floor "name" 1 one_column_state).
  - apply (proj1 (proj2 (proj2 (proj2
             (resizeColumn_floor "name" 1 one_column_state))))).
    discriminate.
Defined.

Lemma findIndex_range {A} (p : A -> bool) (l : list A) :
  findIndex p l = -1 \/ 0 <= findIndex p l < Z.of_nat (length l).
Proof.
  induction l as [| x l IH]; simpl; [by left |].
  destruct (p x); [right; lia |].
  destruct (Z.eqb_spec (findIndex p l) (-1)); [by left | right; lia].
Qed.

Lemma findIndex_none {A} (p : A -> bool) (l : list A) :
  findIndex p l = -1 <-> Forall (fun x => p x = false) l.
Proof.
  induction l as [| x l IH]; simpl; [by split |].
  pose proof (findIndex_range p l) as Hr.
  rewrite Forall_cons. destruct (p x) eqn:Hx.
  - split; [lia | by intros [? _]].
  - destruct (Z.eqb_spec (findIndex p l) (-1)) as [He | Hne].
    + split; [| done]. intros _. split; [done |]. by apply IH.
    + split; [lia |]. intros [_ H]. by apply IH in H.
Qed.

(** A found index points at the first element satisfying the predicate. *)
Lemma findIndex_found {A} (p : A -> bool) (l : list A) :
  findIndex p l ≠ -1 ->
  exists x,
    l !! Z.to_nat (findIndex p l) = Some x /\ p x = true /\
    Forall (fun y => p y = false) (take (Z.to_nat (findIndex p l)) l).
Proof.
  induction l as [| x l IH]; simpl; [done |].
  pose proof (findIndex_range p l) as Hr.
  destruct (p x) eqn:Hx.
  - intros _. exists x. simpl. auto.
  - destruct (Z.eqb_spec (findIndex p l) (-1)) as [He | Hne]; [done |].
    intros _. destruct (IH Hne) as (y & Hy & Hpy & Hbefore).
    exists y.
    replace (Z.to_nat (findIndex p l + 1)) with (S (Z.to_nat (findIndex p l)))
      by lia.
    simpl. repeat split; try done. by constructor.
Qed.

Lemma indexOf_absent (l : list string) x : indexOf l x = -1 <-> x ∉ l.
Proof.
  unfold indexOf. rewrite findIndex_none, Forall_forall. split.
  - intros H Hin. specialize (H x Hin). by rewrite bool_decide_eq_false in H.
  - intros Hx y Hy. apply bool_decide_eq_false. by intros ->.
Qed.

(** X15.  [moveColumn] leaves the snapshot as it is when either column is not in
    [columnOrder] or both are the same. *)
Theorem moveColumn_noop (dragColumnId hoverColumnId : string)
    (prev : GridState) :
  dragColumnId ∉ columnOrder prev \/ hoverColumnId ∉ columnOrder prev \/
  dragColumnId = hoverColumnId ->
  moveColumn dragColumnId hoverColumnId prev = prev.
Proof.
  unfold moveColumn. intros [H | [H | ->]].
  - apply indexOf_absent in H. by rewrite H.
  - apply indexOf_absent in H. rewrite H. simpl. by rewrite orb_true_r.
  - rewrite Z.eqb_refl. by rewrite orb_true_r.
Qed.

Lemma moveColumn_noop_witness :
  moveColumn "ghost" "name" one_column_state = one_column_state.
Proof.
  apply (moveColumn_noop "ghost" "name" one_column_state).
  left. intros Hin. apply list_elem_of_singleton in Hin. discriminate.
Defined.

Lemma splice_delete_middle {A} (l : list A) (d : nat) x :
  l !! d = Some x ->
  l = take d l ++ x :: drop (S d) l /\
  splice_delete (Z.of_nat d) l = take d l ++ drop (S d) l.
Proof.
  intros Hd. split; [by rewrite take_drop_middle |].
  unfold splice_delete. by rewrite Nat2Z.id.
Qed.

(** X16.  [moveColumn] on two different columns of [columnOrder]: the new order
    is a rearrangement of the old one, the dragged column stands at the
    position the hovered column had, and the other columns keep their
    relative order. *)
Theorem moveColumn_moves (dragColumnId hoverColumnId : string)
    (prev : GridState) :
  dragColumnId ∈ columnOrder prev ->
  hoverColumnId ∈ columnOrder prev ->
  dragColumnId ≠ hoverColumnId ->
  let next := moveColumn dragColumnId hoverColumnId prev in
  let others := List.filter (fun c => negb (bool_decide (c = dragColumnId))) in
  columnOrder next ≡ₚ columnOrder prev /\
  array_get (columnOrder next) (indexOf (columnOrder prev) hoverColumnId)
    = Some dragColumnId /\
  others (columnOrder next) = others (columnOrder prev).
Proof.
  intros Hdrag Hhover Hne. cbv zeta. unfold moveColumn.
  set (order := columnOrder prev) in *.
  assert (indexOf order dragColumnId ≠ -1) as Hd
    by (rewrite indexOf_absent; tauto).
  assert (indexOf order hoverColumnId ≠ -1) as Hh
    by (rewrite indexOf_absent; tauto).
  destruct (findIndex_found _ _ Hd) as (x & Hx & Hpx & _).
  destruct (findIndex_found _ _ Hh) as (y & Hy & Hpy & _).
  apply bool_decide_eq_true in Hpx, Hpy. subst x y.
  fold (indexOf order dragColumnId) in Hx.
  fold (indexOf order hoverColumnId) in Hy.
  pose proof (findIndex_range (fun y => bool_decide (y = dragColumnId)) order)
    as [Hrd | Hrd]; [done |].
  pose proof (findIndex_range (fun y => bool_decide (y = hoverColumnId)) order)
    as [Hrh | Hrh]; [done |].
  fold (indexOf order dragColumnId) in Hrd.
  fold (indexOf order hoverColumnId) in Hrh.
  assert (indexOf order dragColumnId ≠ indexOf order hoverColumnId) as Hdh.
  { intros Heq. rewrite Heq in Hx. congruence. }
  destruct (Z.eqb_spec (indexOf order dragColumnId) (-1)); [done |].
  destruct (Z.eqb_spec (indexOf order hoverColumnId) (-1)); [done |].
  destruct (Z.eqb_spec (indexOf order dragColumnId)
                       (indexOf order hoverColumnId)); [done |].
  simpl.
  set (d := Z.to_nat (indexOf order dragColumnId)) in *.
  set (h := Z.to_nat (indexOf order hoverColumnId)) in *.
  unfold splice_insert, splice_delete. fold d h.
  set (rest := take d order ++ drop (S d) order).
  assert (order = take d order ++ dragColumnId :: drop (S d) order) as Horder
    by (by rewrite take_drop_middle).
  assert (length rest = pred (length order)) as Hlen.
  { unfold rest. rewrite length_app, length_take, length_drop. lia. }
  split; [| split].
  - rewrite <- Permutation_middle, take_drop.
    unfold rest. rewrite Permutation_middle. by rewrite <- Horder.
  - unfold array_get. destruct (Z.ltb_spec (indexOf order hoverColumnId) 0);
      [lia |]. fold h.
    rewrite lookup_app_r by (rewrite length_take; lia).
    rewrite length_take.
    replace (h - h `min` length rest)%nat with 0%nat by lia. done.
  - rewrite List.filter_app. simpl.
    rewrite bool_decide_true by done. simpl.
    rewrite <- List.filter_app, take_drop.
    transitivity
      (List.filter (fun c => negb (bool_decide (c = dragColumnId)))
                   (take d order ++ dragColumnId :: drop (S d) order));
      [| by rewrite <- Horder].
    unfold rest. rewrite !List.filter_app. simpl.
    by rewrite bool_decide_true by done.
Qed.

(** Dragging [age] onto [firstName]: [age] takes position 1 and the other
    columns keep their order. *)
Lemma moveColumn_moves_witness :
  let next := moveColumn "age" "firstName" app_state in
  columnOrder next ≡ₚ columnOrder app_state /\
  array_get (columnOrder next) 1 = Some "age"%string /\
  List.filter (fun c => negb (bool_decide (c = "age"%string))) (columnOrder next)
    = ["id"; "firstName"; "lastName"; "email"]%string.
Proof.
  apply (moveColumn_moves "age" "firstName" app_state).
  - apply (list_elem_of_lookup_2 _ 4%nat). reflexivity.
  - apply (list_elem_of_lookup_2 _ 1%nat). reflexivity.
  - discriminate.
Defined.

Example moveColumn_example :
  columnOrder (moveColumn "age" "firstName" app_state)
    = ["id"; "age"; "firstName"; "lastName"; "email"]%string /\
  columnOrder (moveColumn "firstName" "email" app_state)
    = ["id"; "lastName"; "email"; "firstName"; "age"]%string /\
  columnOrder (handleDrop "firstName" "age" app_state)
    = ["id"; "age"; "firstName"; "lastName"; "email"]%string.
Proof. repeat split; by vm_compute. Qed.

(** ** Sort descriptors *)

Lemma toggleSort_sort js_lt columnId multi prev :
  sort (toggleSort js_lt columnId multi prev) =
  toggled_sort columnId multi (sort prev).
Proof. reflexivity. Qed.

Lemma toggleSort_rowMap js_lt columnId multi prev :
  rowMap (toggleSort js_lt columnId multi prev) = rowMap prev.
Proof. reflexivity. Qed.

Lemma toggleSort_rowOrder_perm js_lt columnId multi prev :
  rowOrder (toggleSort js_lt columnId multi prev) ≡ₚ rowOrder prev.
Proof. unfold toggleSort. simpl. by rewrite sortRows_perm. Qed.

Lemma find_findIndex {A} (p : A -> bool) (l : list A) :
  List.find p l = array_get l (findIndex p l).
Proof.
  induction l as [| x l IH]; simpl; [done |].
  destruct (p x); [done |]. rewrite IH.
  pose proof (findIndex_range p l) as Hr. unfold array_get.
  destruct (Z.eqb_spec (findIndex p l) (-1)) as [-> | Hne]; [done |].
  destruct (Z.ltb_spec (findIndex p l) 0); [lia |].
  destruct (Z.ltb_spec (findIndex p l + 1) 0); [lia |].
  by replace (Z.to_nat (findIndex p l + 1)) with (S (Z.to_nat (findIndex p l)))
    by lia.
Qed.

(** X17.  Clicking an unsorted column three times in single mode goes through
    ascending and descending and back to no sort. *)
Theorem toggleSort_single_cycle (js_lt : JsVal -> JsVal -> bool)
    (columnId : string) (prev : GridState) :
  List.find (fun s => bool_decide (sd_columnId s = columnId)) (sort prev)
    = None ->
  let click := toggleSort js_lt columnId false in
  sort (click prev) = [ {| sd_columnId := columnId; sd_direction := Asc |} ] /\
  sort (click (click prev))
    = [ {| sd_columnId := columnId; sd_direction := Desc |} ] /\
  sort (click (click (click prev))) = [] /\
  rowMap (click (click (click prev))) = rowMap prev /\
  rowOrder (click (click (click prev))) ≡ₚ rowOrder prev.
Proof.
  intros Hfind. cbv zeta.
  assert (sort (toggleSort js_lt columnId false prev)
          = [ {| sd_columnId := columnId; sd_direction := Asc |} ]) as H1.
  { rewrite toggleSort_sort. unfold toggled_sort. by rewrite Hfind. }
  assert (sort (toggleSort js_lt columnId false
                  (toggleSort js_lt columnId false prev))
          = [ {| sd_columnId := columnId; sd_direction := Desc |} ]) as H2.
  { rewrite toggleSort_sort, H1. unfold toggled_sort. simpl.
    by rewrite bool_decide_true. }
  repeat split; try done.
  - rewrite toggleSort_sort, H2. unfold toggled_sort. simpl.
    by rewrite bool_decide_true.
  - by rewrite !toggleSort_rowOrder_perm.
Qed.

Lemma toggleSort_single_cycle_witness :
  let click := toggleSort prim_lt "age" false in
  let prev := loaded rows_by_age 0 in
  sort (click prev) = [ {| sd_columnId := "age"; sd_direction := Asc |} ] /\
  sort (click (click prev))
    = [ {| sd_columnId := "age"; sd_direction := Desc |} ] /\
  sort (click (click (click prev))) = [] /\
  rowMap (click (click (click prev))) = rowMap prev /\
  rowOrder (click (click (click prev))) ≡ₚ rowOrder prev.
Proof.
  apply (toggleSort_single_cycle prim_lt "age" (loaded rows_by_age 0)).
  reflexivity.
Defined.

Lemma find_none_key (columnId : string) (l : list SortDescriptor) :
  List.find (fun s => bool_decide (sd_columnId s = columnId)) l = None ->
  columnId ∉ map sd_columnId l.
Proof.
  induction l as [| x l IH]; simpl; [intros _; apply not_elem_of_nil |].
  case_bool_decide as Hx; [done |]. intros H%IH.
  apply not_elem_of_cons. split; [congruence | done].
Qed.

Lemma map_key_filter_sublist (p : SortDescriptor -> bool) l :
  sublist (map sd_columnId (List.filter p l)) (map sd_columnId l).
Proof.
  induction l as [| x l IH]; simpl; [done |].
  destruct (p x); simpl; [by apply sublist_skip | by apply sublist_cons].
Qed.

(** X18.  [toggleSort] never gives a column two descriptors: if the column ids of
    the sort are pairwise different before the call, they are after it. *)
Theorem toggleSort_unique_columns (js_lt : JsVal -> JsVal -> bool)
    (columnId : string) (multi : bool) (prev : GridState) :
  NoDup (map sd_columnId (sort prev)) ->
  NoDup (map sd_columnId (sort (toggleSort js_lt columnId multi prev))).
Proof.
  intros Hnd. rewrite toggleSort_sort. unfold toggled_sort.
  destruct multi; simpl;
    destruct (List.find _ (sort prev)) as [e |] eqn:Hfind;
    try destruct (sd_direction e);
    try (by repeat constructor; set_solver).
  - rewrite <- list_fmap_compose.
    erewrite list_fmap_ext; [exact Hnd |].
    intros i s _. simpl. by case_bool_decide.
  - eapply sublist_NoDup; [exact Hnd | apply map_key_filter_sublist].
  - rewrite fmap_app. simpl. apply NoDup_app. split; [done |]. split.
    + intros x Hx Hin%list_elem_of_singleton. subst x.
      by apply find_none_key in Hfind.
    + apply NoDup_singleton.
Qed.

Lemma toggleSort_unique_columns_witness :
  NoDup (map sd_columnId
             (sort (toggleSort prim_lt "id" true (loaded rows_by_age 1)))).
Proof.
  apply (toggleSort_unique_columns prim_lt "id" true (loaded rows_by_age 1)).
  apply NoDup_singleton.
Defined.

Section UniqueKey.

Variable columnId : string.

Let p (s : SortDescriptor) : bool := bool_decide (sd_columnId s = columnId).

Lemma flip_others (g : SortDescriptor -> SortDescriptor) l :
  Forall (fun s => p s = false) l ->
  map (fun s => if p s then g s else s) l = l /\
  List.filter (fun s => negb (p s)) l = l.
Proof.
  induction 1 as [| x l Hx _ [IH1 IH2]]; simpl; [done |].
  by rewrite Hx, IH1, IH2.
Qed.

Lemma unique_key_elsewhere l i e :
  NoDup (map sd_columnId l) ->
  l !! i = Some e -> p e = true ->
  Forall (fun s => p s = false) (take i l) /\
  Forall (fun s => p s = false) (drop (S i) l).
Proof.
  intros Hnd Hi He. apply bool_decide_eq_true in He.
  assert (forall j x, l !! j = Some x -> j ≠ i -> p x = false) as Hother.
  { intros j x Hj Hne. apply bool_decide_eq_false. intros Hx.
    apply Hne. eapply (NoDup_lookup _ j i (sd_columnId x) Hnd).
    - by rewrite list_lookup_fmap, Hj.
    - rewrite list_lookup_fmap, Hi. simpl. congruence. }
  split; apply Forall_forall; intros x Hx.
  - apply elem_of_take in Hx as (j & Hj & Hlt). apply (Hother j x Hj). lia.
  - apply list_elem_of_lookup in Hx as (j & Hj). rewrite lookup_drop in Hj.
    apply (Hother _ x Hj). lia.
Qed.

Lemma toggled_sort_dispatch multi l :
  NoDup (map sd_columnId l) ->
  toggled_sort columnId multi l = dispatchSortAction columnId multi l.
Proof.
  intros Hnd. unfold toggled_sort, dispatchSortAction.
  rewrite find_findIndex. fold p.
  destruct (Z.eq_dec (findIndex p l) (-1)) as [Hnone | Hsome].
  - rewrite Hnone. unfold array_get. simpl. by destruct multi.
  - destruct (findIndex_found p l Hsome) as (e & He & Hpe & _).
    pose proof (findIndex_range p l) as [? | Hr]; [done |].
    set (i := Z.to_nat (findIndex p l)) in *.
    assert (array_get l (findIndex p l) = Some e) as ->.
    { unfold array_get. destruct (Z.ltb_spec (findIndex p l) 0); [lia | done]. }
    destruct (unique_key_elsewhere l i e Hnd He Hpe) as [Hbefore Hafter].
    assert (l = take i l ++ e :: drop (S i) l) as Hl
      by (by rewrite take_drop_middle).
    destruct multi; simpl; [| done].
    set (g := fun s => {| sd_columnId := sd_columnId s; sd_direction := Desc |}).
    change (fun s => if bool_decide (sd_columnId s = columnId)
                     then {| sd_columnId := sd_columnId s;
                             sd_direction := Desc |}
                     else s)
      with (fun s => if p s then g s else s).
    change (fun s => negb (bool_decide (sd_columnId s = columnId)))
      with (fun s => negb (p s)).
    destruct (sd_direction e).
    + rewrite insert_take_drop by (eapply lookup_lt_Some, He).
      rewrite Hl at 1. rewrite map_app. simpl. rewrite Hpe.
      by rewrite (proj1 (flip_others g _ Hbefore)),
                 (proj1 (flip_others g _ Hafter)).
    + unfold splice_delete. fold i.
      rewrite Hl at 1. rewrite List.filter_app. simpl. rewrite Hpe. simpl.
      by rewrite (proj2 (flip_others g _ Hbefore)),
                 (proj2 (flip_others g _ Hafter)).
Qed.

End UniqueKey.

(** X19.  The store's [toggleSort] and the stand-alone component's
    [dispatchSortAction] compute the same descriptors whenever no column
    has two descriptors. *)
Theorem toggleSort_agrees_with_dispatchSortAction
    (js_lt : JsVal -> JsVal -> bool) (columnId : string) (multi : bool)
    (prev : GridState) :
  NoDup (map sd_columnId (sort prev)) ->
  sort (toggleSort js_lt columnId multi prev) =
  dispatchSortAction columnId multi (sort prev).
Proof. intros Hnd. rewrite toggleSort_sort. by apply toggled_sort_dispatch. Qed.

Lemma toggleSort_agrees_with_dispatchSortAction_witness :
  sort (toggleSort prim_lt "age" true (loaded rows_by_age 1)) =
  dispatchSortAction "age" true (sort (loaded rows_by_age 1)).
Proof.
  apply (toggleSort_agrees_with_dispatchSortAction prim_lt "age" true
           (loaded rows_by_age 1)).
  apply NoDup_singleton.
Defined.

(** [toggleSort] keeps [rowMap], rearranges [rowOrder] without losing or
    repeating a row, and in multi mode leaves the descriptors of the other
    columns as they are, in their order. *)
Theorem toggleSort_keeps_rows (js_lt : JsVal -> JsVal -> bool)
    (columnId : string) (multi : bool) (prev : GridState) :
  let next := toggleSort js_lt columnId multi prev in
  let others :=
    List.filter (fun s => negb (bool_decide (sd_columnId s = columnId))) in
  rowMap next = rowMap prev /\
  rowOrder next ≡ₚ rowOrder prev /\
  others (sort (toggleSort js_lt columnId true prev)) = others (sort prev).
Proof.
  cbv zeta. split; [done |]. split; [apply toggleSort_rowOrder_perm |].
  rewrite toggleSort_sort. unfold toggled_sort. simpl.
  destruct (List.find _ (sort prev)) as [e |]; [destruct (sd_direction e) |].
  - induction (sort prev) as [| x l IH]; simpl; [done |].
    destruct (bool_decide_reflect (sd_columnId x = columnId)) as [Hx | Hx];
      simpl; rewrite ?bool_decide_true, ?bool_decide_false by done;
      simpl; by rewrite ?IH.
  - induction (sort prev) as [| x l IH]; simpl; [done |].
    destruct (bool_decide_reflect (sd_columnId x = columnId)) as [Hx | Hx];
      simpl; rewrite ?bool_decide_true, ?bool_decide_false by done;
      simpl; by rewrite ?IH.
  - rewrite List.filter_app. simpl. rewrite bool_decide_true by done.
    simpl. by rewrite app_nil_r.
Qed.

(** ** Sorting a numeric column *)

Section InsertionSorted.

Context {A : Type} (compare : A -> A -> Z) (R : A -> A -> Prop) (P : A -> Prop).

Hypothesis compare_gt : forall a b, P a -> P b -> 0 < compare a b -> R b a.
Hypothesis compare_le : forall a b, P a -> P b -> compare a b <= 0 -> R a b.
Hypothesis R_trans : forall a b c, R a b -> R b c -> R a c.

Lemma sort_insert_sorted x l :
  P x -> Forall P l -> StronglySorted R l ->
  StronglySorted R (sort_insert compare x l).
Proof.
  intros Hx Hl Hs. induction l as [| y l IH]; simpl.
  - repeat constructor.
  - apply Forall_cons in Hl as [Hy Hl].
    apply StronglySorted_inv in Hs as [Hs Hall].
    destruct (Z.ltb_spec 0 (compare x y)) as [Hgt | Hle].
    + constructor; [by apply IH |].
      rewrite sort_insert_perm. constructor; [by apply compare_gt | done].
    + constructor; [by constructor |].
      constructor; [by apply compare_le |].
      eapply Forall_impl; [exact Hall |]. intros z Hz. simpl in Hz.
      eapply R_trans; [by apply compare_le | done].
Qed.

Lemma array_sort_sorted l :
  Forall P l -> StronglySorted R (array_sort compare l).
Proof.
  induction 1 as [| x l Hx Hl IH]; simpl; [constructor |].
  apply sort_insert_sorted; [done | | done].
  by rewrite array_sort_perm.
Qed.

End InsertionSorted.

Lemma compareRows_numeric js_lt rowMap d a b na nb :
  (forall x y, js_lt (VNum x) (VNum y) = (x <? y)) ->
  num_at rowMap (sd_columnId d) a = Some na ->
  num_at rowMap (sd_columnId d) b = Some nb ->
  compareRows js_lt rowMap [d] a b =
  (match na ?= nb with Lt => -1 | Eq => 0 | Gt => 1 end)
  * (match sd_direction d with Asc => 1 | Desc => -1 end).
Proof.
  intros Hlt Ha Hb. unfold compareRows, num_at in *.
  destruct (rowMap !! a) as [rowA |]; [| done].
  destruct (rowMap !! b) as [rowB |]; [| done].
  simpl.
  destruct (get_field rowA (sd_columnId d)) as [| | | x |]; try done.
  destruct (get_field rowB (sd_columnId d)) as [| | | y |]; try done.
  injection Ha as ->. injection Hb as ->.
  unfold strict_eq, js_gt. rewrite !Hlt. simpl.
  case_bool_decide as Heq.
  - injection Heq as ->. by rewrite Z.compare_refl.
  - destruct (Z.compare_spec na nb) as [-> | Hc | Hc]; [done | |].
    + destruct (Z.ltb_spec na nb); [| lia]. by destruct (sd_direction d).
    + destruct (Z.ltb_spec na nb); [lia |].
      destruct (Z.ltb_spec nb na); [| lia]. by destruct (sd_direction d).
Qed.

(** X20.  With a single descriptor on a column that holds a number in every row,
    [sortRows] returns the row ids ordered by that number: non-decreasing
    for an ascending descriptor, non-increasing for a descending one. *)
Theorem sortRows_numeric_sorted (js_lt : JsVal -> JsVal -> bool)
    (s : GridState) (d : SortDescriptor) :
  (forall x y, js_lt (VNum x) (VNum y) = (x <? y)) ->
  sort s = [d] ->
  numeric_column s (sd_columnId d) ->
  StronglySorted (in_order (rowMap s) d) (sortRows js_lt s) /\
  sortRows js_lt s ≡ₚ rowOrder s.
Proof.
  intros Hlt Hsort Hnum. split; [| apply sortRows_perm].
  unfold sortRows. rewrite Hsort. simpl.
  apply (array_sort_sorted _ _
           (fun id => is_Some (num_at (rowMap s) (sd_columnId d) id)));
    [| | | exact Hnum].
  - intros a b [na Ha] [nb Hb]. unfold in_order.
    rewrite (compareRows_numeric js_lt _ d a b na nb Hlt Ha Hb), Ha, Hb. simpl.
    destruct (Z.compare_spec na nb), (sd_direction d); lia.
  - intros a b [na Ha] [nb Hb]. unfold in_order.
    rewrite (compareRows_numeric js_lt _ d a b na nb Hlt Ha Hb), Ha, Hb. simpl.
    destruct (Z.compare_spec na nb), (sd_direction d); lia.
  - intros a b c. unfold in_order. destruct (sd_direction d); lia.
Qed.

(** The ages 2, 3, 1 of rows 1, 2, 3, sorted descending: rows 2, 1, 3. *)
Lemma sortRows_numeric_sorted_witness :
  let s := loaded rows_by_age 2 in
  let d := {| sd_columnId := "age"; sd_direction := Desc |} in
  (StronglySorted (in_order (rowMap s) d) (sortRows prim_lt s) /\
   sortRows prim_lt s ≡ₚ rowOrder s) /\
  sortRows prim_lt s = [RNum 2; RNum 1; RNum 3].
Proof.
  split; [| by vm_compute].
  apply (sortRows_numeric_sorted prim_lt (loaded rows_by_age 2)
           {| sd_columnId := "age"; sd_direction := Desc |}).
  - reflexivity.
  - by vm_compute.
  - apply (bool_decide_unpack _). by vm_compute.
Defined.

(** ** The data invariant: every id of [rowOrder] is in [rowMap] *)

Lemma rows_consistent_frame s s' :
  rowOrder s' ≡ₚ rowOrder s ->
  (forall id, is_Some (rowMap s !! id) -> is_Some (rowMap s' !! id)) ->
  rows_consistent s -> rows_consistent s'.
Proof.
  unfold rows_consistent. intros Hperm Hmap Hs. rewrite Hperm.
  eapply Forall_impl; [exact Hs | exact Hmap].
Qed.

(** X21.  [setData] establishes the invariant, whatever the rows and the ids
    given to them, duplicates included, and whatever sort is active. *)
Theorem setData_rows_consistent (js_lt : JsVal -> JsVal -> bool)
    (rows : list Row) (getRowId : Row -> RowId) (prev : GridState) :
  rows_consistent (setData js_lt rows getRowId prev).
Proof.
  unfold rows_consistent. rewrite setData_rowOrder_perm.
  apply Forall_forall. intros id Hid.
  rewrite setData_rowMap.
  rewrite (proj1 (build_rows_spec getRowId rows id)).
  apply last_is_Some. intros Hnil.
  apply list_elem_of_fmap in Hid as (r & -> & Hr).
  assert (r ∈ List.filter (fun r0 => bool_decide (getRowId r0 = getRowId r)) rows)
    as Hin by (apply elem_of_List_filter; split; [done | by apply bool_decide_true]).
  rewrite Hnil in Hin. by apply not_elem_of_nil in Hin.
Qed.

Lemma updateRow_rows_consistent rowId updates s :
  rows_consistent s -> rows_consistent (updateRow rowId updates s).
Proof.
  unfold updateRow. destruct (rowMap s !! rowId) as [row |] eqn:Hrow; [| done].
  apply rows_consistent_frame; [done |]. simpl. intros id His.
  apply lookup_insert_is_Some. destruct (decide (rowId = id)); auto.
Qed.

Lemma commitEdit_rows_consistent s :
  rows_consistent s -> rows_consistent (commitEdit s).
Proof.
  unfold commitEdit. destruct (editingCell s) as [e |]; [| done].
  destruct (rowMap s !! ed_rowId e) as [row |] eqn:Hrow; [| done].
  apply rows_consistent_frame; [done |]. simpl. intros id His.
  apply lookup_insert_is_Some. destruct (decide (ed_rowId e = id)); auto.
Qed.

(** X22.  The transitions that touch rows keep the invariant: sorting, row
    updates, committing an edit, and the cell editor's commit with its
    rollback. *)
Theorem rows_consistent_preserved (js_lt : JsVal -> JsVal -> bool)
    (prev : GridState) :
  rows_consistent prev ->
  (forall columnId multi,
     rows_consistent (toggleSort js_lt columnId multi prev)) /\
  (forall rowId updates, rows_consistent (updateRow rowId updates prev)) /\
  rows_consistent (commitEdit prev) /\
  (forall onCellEdit, rows_consistent (commit onCellEdit prev)).
Proof.
  intros Hprev. repeat split.
  - intros columnId multi.
    eapply rows_consistent_frame; [| | exact Hprev].
    + apply toggleSort_rowOrder_perm.
    + by rewrite toggleSort_rowMap.
  - intros rowId updates. by apply updateRow_rows_consistent.
  - by apply commitEdit_rows_consistent.
  - intros onCellEdit. unfold commit.
    destruct (editingCell prev) as [e |]; [| done].
    destruct onCellEdit as [handler |]; [| by apply commitEdit_rows_consistent].
    destruct (handler _) as [| message |];
      [by apply commitEdit_rows_consistent | |];
    apply (rows_consistent_frame
             (updateRow (ed_rowId e)
                {[ed_colId e :=
                     match rowMap prev !! ed_rowId e with
                     | Some row => get_field row (ed_colId e)
                     | None => VUndefined
                     end]} (commitEdit prev))); try done;
      by apply updateRow_rows_consistent, commitEdit_rows_consistent.
Qed.

Lemma rows_consistent_preserved_witness :
  rows_consistent (toggleSort prim_lt "age" false (loaded rows_by_age 0)) /\
  rows_consistent (commit (Some (reject_with "no")) editing_state).
Proof.
  split.
  - apply (rows_consistent_preserved prim_lt (loaded rows_by_age 0)).
    apply (bool_decide_unpack _). by vm_compute.
  - apply (rows_consistent_preserved prim_lt editing_state).
    apply (bool_decide_unpack _). by vm_compute.
Defined.

(** ** Column visibility and editing: round trips and frames *)

(** X23.  Toggling twice a column that has an entry in [columnVisibility] gives
    the snapshot back. *)
Theorem toggleColumnVisibility_twice (columnId : string) (prev : GridState)
    (b : bool) :
  columnVisibility prev !! columnId = Some b ->
  toggleColumnVisibility columnId (toggleColumnVisibility columnId prev) = prev.
Proof.
  intros Hb. destruct prev. unfold toggleColumnVisibility. simpl in *.
  unfold with_columnVisibility. simpl. f_equal.
  rewrite lookup_insert_eq, Hb. simpl.
  rewrite insert_insert_eq, negb_involutive. by apply insert_id.
Qed.

Lemma toggleColumnVisibility_twice_witness :
  toggleColumnVisibility "email" (toggleColumnVisibility "email" app_state)
  = app_state.
Proof.
  apply (toggleColumnVisibility_twice "email" app_state true). by vm_compute.
Defined.

Lemma run_edit_action_frame s a :
  run_edit_action s a = with_editingCell (editingCell (run_edit_action s a)) s.
Proof.
  destruct s, a; simpl; try reflexivity;
    unfold updateEditValue, setEditSaving, setEditError; simpl;
    by destruct editingCell0.
Qed.

(** Starting, updating, flagging and cancelling an edit change nothing but
    [editingCell]: after any sequence of these transitions the rows, their
    order, the sort and the column state are those of the start. *)
Theorem edit_actions_frame (actions : list EditAction) (s : GridState) :
  run_edit_actions actions s =
  with_editingCell (editingCell (run_edit_actions actions s)) s.
Proof.
  unfold run_edit_actions. revert s.
  induction actions as [| a actions IH]; intros s; simpl.
  - by destruct s.
  - etrans; [apply IH |].
    set (e := editingCell (foldl run_edit_action (run_edit_action s a) actions)).
    clearbody e. rewrite (run_edit_action_frame s a). by destruct s.
Qed.

(** X24.  A finished edit: after [startEdit], the user's [updateEditValue] and
    a [commit] that no handler rejects, the editor is closed and the row
    holds the typed value in the edited field, its other fields and the
    other rows being untouched. *)
Theorem edit_success (onCellEdit : option (CellEdit -> EditOutcome))
    (rowId : RowId) (colId : string) (initial typed : JsVal)
    (st : GridState) (row : Row) :
  rowMap st !! rowId = Some row ->
  match onCellEdit with
  | Some handler =>
      handler {| ce_rowId := rowId; ce_colId := colId; ce_value := typed |}
        = Resolved
  | None => True
  end ->
  let st' := commit onCellEdit
               (updateEditValue typed (startEdit rowId colId initial st)) in
  editingCell st' = None /\
  rowMap st' = <[rowId := <[colId := typed]> row]> (rowMap st) /\
  rowOrder st' = rowOrder st.
Proof.
  intros Hrow Hok. cbv zeta. unfold commit, commitEdit. simpl. rewrite Hrow.
  destruct onCellEdit as [handler |]; [rewrite Hok |]; done.
Qed.

Lemma edit_success_witness :
  let st' := commit (Some accept_all)
               (updateEditValue (VNum 7)
                  (startEdit (RNum 1) "age" (VNum 2) (loaded rows_by_age 0))) in
  editingCell st' = None /\
  rowMap st' = <[RNum 1 := <["age"%string := VNum 7]> (person 1 (VNum 2))]>
                 (rowMap (loaded rows_by_age 0)) /\
  rowOrder st' = rowOrder (loaded rows_by_age 0).
Proof.
  apply (edit_success (Some accept_all) (RNum 1) "age" (VNum 2) (VNum 7)
           (loaded rows_by_age 0) (person 1 (VNum 2))); reflexivity.
Defined.

(** X25.  When the edited field is a property of the row, a rejected edit leaves
    [rowMap] exactly as it was before [commit], whether the failure comes
    with a reason or without one. *)
Theorem rollback_restores_rowMap (onCellEdit : CellEdit -> EditOutcome)
    (st : GridState) (e : EditingState) (row : Row) (old : JsVal) :
  editingCell st = Some e ->
  rowMap st !! ed_rowId e = Some row ->
  row !! ed_colId e = Some old ->
  onCellEdit {| ce_rowId := ed_rowId e; ce_colId := ed_colId e;
                ce_value := ed_value e |} ≠ Resolved ->
  rowMap (commit (Some onCellEdit) st) = rowMap st.
Proof.
  intros Hedit Hrow Hold Hfail.
  assert (rowMap (updateRow (ed_rowId e)
                    {[ed_colId e := get_field row (ed_colId e)]}
                    (commitEdit st)) = rowMap st) as Hback.
  { unfold commitEdit. rewrite Hedit, Hrow.
    unfold updateRow. simpl. rewrite lookup_insert_eq. simpl.
    rewrite insert_insert_eq. apply insert_id. rewrite Hrow. f_equal.
    unfold get_field. rewrite Hold. simpl.
    apply map_eq. intros c. destruct (decide (c = ed_colId e)) as [-> | Hc].
    - rewrite lookup_union_l' by (by rewrite lookup_singleton_eq).
      by rewrite lookup_singleton_eq.
    - rewrite lookup_union_r by (by apply lookup_singleton_ne).
      by rewrite lookup_insert_ne. }
  unfold commit. rewrite Hedit, Hrow.
  destruct (onCellEdit _) as [| message |]; [done | exact Hback | exact Hback].
Qed.

Lemma rollback_restores_rowMap_witness :
  rowMap (commit (Some (reject_with "no")) editing_state)
    = rowMap editing_state /\
  rowMap (commit (Some reject_without_reason) editing_state)
    = rowMap editing_state.
Proof.
  split.
  - apply (rollback_restores_rowMap (reject_with "no") editing_state
             {| ed_rowId := RNum 1; ed_colId := "age"; ed_value := VStr "x";
                ed_originalValue := VNum 2; ed_isSaving := false;
                ed_error := None |}
             (person 1 (VNum 2)) (VNum 2)); (reflexivity || discriminate).
  - apply (rollback_restores_rowMap reject_without_reason editing_state
             {| ed_rowId := RNum 1; ed_colId := "age"; ed_value := VStr "x";
                ed_originalValue := VNum 2; ed_isSaving := false;
                ed_error := None |}
             (person 1 (VNum 2)) (VNum 2)); (reflexivity || discriminate).
Defined.

(** X26.  An edit whose row is gone: [commit] changes neither [rowMap] nor
    [rowOrder], whatever the handler answers.  A failing handler leaves the
    editor open on the missing row with the attempted value and [isSaving]
    false; [error] is the failure's message (or the default one) when the
    failure has a reason whose [message] can be read, and stays [null] when
    the reason is [undefined] or [null], [setEditError] not being
    reached. *)
Theorem commit_stale_row (onCellEdit : option (CellEdit -> EditOutcome))
    (st : GridState) (e : EditingState) :
  editingCell st = Some e ->
  rowMap st !! ed_rowId e = None ->
  rowMap (commit onCellEdit st) = rowMap st /\
  rowOrder (commit onCellEdit st) = rowOrder st /\
  forall handler,
    onCellEdit = Some handler ->
    let outcome := handler {| ce_rowId := ed_rowId e; ce_colId := ed_colId e;
                              ce_value := ed_value e |} in
    outcome ≠ Resolved ->
    editingCell (commit onCellEdit st) =
    Some {| ed_rowId := ed_rowId e; ed_colId := ed_colId e;
            ed_value := ed_value e; ed_originalValue := ed_value e;
            ed_isSaving := false;
            ed_error := match outcome with
                        | Rejected message => Some (message_or_default message)
                        | _ => None
                        end |}.
Proof.
  intros Hedit Hrow. unfold commit. rewrite Hedit, Hrow.
  unfold commitEdit. rewrite Hedit, Hrow.
  destruct onCellEdit as [handler |]; [| by repeat split].
  destruct (handler _) as [| message |] eqn:Hout.
  - repeat split. intros h [= <-]. cbv zeta. by rewrite Hout.
  - unfold updateRow. simpl. rewrite Hrow. simpl. repeat split.
    intros h [= <-] _. by rewrite Hout.
  - unfold updateRow. simpl. rewrite Hrow. simpl. repeat split.
    intros h [= <-] _. by rewrite Hout.
Qed.

Lemma commit_stale_row_witness :
  rowMap (commit (Some (reject_with "no")) stale_editing_state)
    = rowMap stale_editing_state /\
  editingCell (commit (Some (reject_with "no")) stale_editing_state) =
    Some {| ed_rowId := RNum 9; ed_colId := "age"; ed_value := VStr "x";
            ed_originalValue := VStr "x"; ed_isSaving := false;
            ed_error := Some "no"%string |} /\
  editingCell (commit (Some reject_without_reason) stale_editing_state) =
    Some {| ed_rowId := RNum 9; ed_colId := "age"; ed_value := VStr "x";
            ed_originalValue := VStr "x"; ed_isSaving := false;
            ed_error := None |}.
Proof.
  destruct (commit_stale_row (Some (reject_with "no")) stale_editing_state
              {| ed_rowId := RNum 9; ed_colId := "age"; ed_value := VStr "x";
                 ed_originalValue := VNum 2; ed_isSaving := false;
                 ed_error := None |} eq_refl eq_refl) as (Hmap & _ & Hopen).
  destruct (commit_stale_row (Some reject_without_reason) stale_editing_state
              {| ed_rowId := RNum 9; ed_colId := "age"; ed_value := VStr "x";
                 ed_originalValue := VNum 2; ed_isSaving := false;
                 ed_error := None |} eq_refl eq_refl) as (_ & _ & Hopen').
  split; [exact Hmap |]. split.
  - apply (Hopen (reject_with "no")); [reflexivity | discriminate].
  - apply (Hopen' reject_without_reason); [reflexivity | discriminate].
Defined.

(** ** Subscriptions *)

Lemma elem_of_registered l e : l ∈ registered e <-> Some l ∈ e.
Proof.
  unfold registered. rewrite list_elem_of_omap. split.
  - intros (x & Hx & Hid). simpl in Hid. by subst x.
  - intros H. by exists (Some l).
Qed.

Lemma registered_set_delete_sublist l e :
  sublist (registered (set_delete l e)) (registered e).
Proof.
  unfold registered, set_delete.
  induction e as [| [x |] e IH]; simpl; [done | | done].
  case_bool_decide; simpl; [by apply sublist_cons | by apply sublist_skip].
Qed.

Lemma run_ops_NoDup ops : forall e,
  NoDup (registered e) -> NoDup (registered (run_ops ops e)).
Proof.
  induction ops as [| op ops IH]; intros e He; [done |].
  simpl. apply IH. destruct op as [l | l]; simpl.
  - unfold set_add. case_bool_decide as Hin; [done |].
    unfold registered. rewrite omap_app. simpl.
    apply NoDup_app. split; [done |]. split; [| apply NoDup_singleton].
    intros x Hx ->%list_elem_of_singleton. by apply elem_of_registered in Hx.
  - eapply sublist_NoDup; [exact He | apply registered_set_delete_sublist].
Qed.

(** X27.  The listener set behaves as a set: whatever sequence of [subscribe]
    and unsubscribe calls built it, a pass over listeners that leave the
    set alone calls each registered listener exactly once, also one that
    subscribed several times, and calls no other. *)
Theorem notify_once_each (body : nat -> GridState -> list SetOp)
    (ops : list SetOp) (s : GridState) (fuel : nat) :
  let store := {| state := s; listeners := run_ops ops [] |} in
  (forall l, body l s = []) ->
  (length (listeners store) < fuel)%nat ->
  exists called,
    notify body fuel store = Some (store, called) /\
    NoDup called /\
    forall l, l ∈ called <-> Some l ∈ listeners store.
Proof.
  cbv zeta. intros Hpassive Hfuel. simpl in *.
  exists (registered (run_ops ops [])). split; [| split].
  - unfold notify. simpl.
    rewrite (forEach_passive body s) by (auto || lia).
    by rewrite drop_0.
  - apply run_ops_NoDup. constructor.
  - intros l. apply elem_of_registered.
Qed.

(** Listener 4 subscribes twice and listener 5 subscribes and leaves: the
    pass calls 4 once and nobody else. *)
Lemma notify_once_each_witness :
  exists called,
    notify passive_body 5
      {| state := initialState [];
         listeners := run_ops [Subscribe 4; Subscribe 5; Subscribe 4;
                               Unsubscribe 5]%nat [] |}
    = Some ({| state := initialState [];
               listeners := [Some 4%nat; None] |}, called) /\
    NoDup called /\
    forall l, l ∈ called <-> Some l ∈ [Some 4%nat; None].
Proof.
  apply (notify_once_each passive_body
           [Subscribe 4; Subscribe 5; Subscribe 4; Unsubscribe 5]%nat
           (initialState []) 5%nat).
  - reflexivity.
  - vm_compute. lia.
Defined.

(** X28.  A listener that has been unsubscribed is not called by the next
    [setState], unless another listener subscribes it again during the
    pass; the snapshot after the pass is the updated one. *)
Theorem unsubscribed_not_called (body : nat -> GridState -> list SetOp)
    (updater : GridState -> GridState) (fuel : nat) (store store' : GridStore)
    (l : nat) (called : list nat) :
  (forall c s, Subscribe l ∉ body c s) ->
  setState body updater fuel (unsubscribe l store) = Some (store', called) ->
  (l ∉ called) /\ state store' = updater (state store).
Proof.
  intros Hsub. unfold setState, notify. simpl.
  destruct (forEach _ _ _ _ _) as [[e c] |] eqn:Hrec; [| done].
  intros [= <- <-]. split; [| done].
  eapply forEach_skips_absent; [| | exact Hrec].
  - apply set_delete_absent.
  - intros c0. apply Hsub.
Qed.

Lemma unsubscribed_not_called_witness :
  (1%nat ∉ [0%nat]) /\
  state {| state := cancelEdit (initialState []);
           listeners := [Some 0%nat; None] |}
    = cancelEdit (state (store_with [0; 1]%nat)).
Proof.
  apply (unsubscribed_not_called passive_body cancelEdit 3%nat
           (store_with [0; 1]%nat)
           {| state := cancelEdit (initialState []);
              listeners := [Some 0%nat; None] |} 1%nat [0%nat]).
  - intros c s Hin. by apply not_elem_of_nil in Hin.
  - by vm_compute.
Defined.

(** ** Keyboard navigation *)

Lemma array_get_elem {A} (l : list A) (i : Z) x :
  array_get l i = Some x -> x ∈ l.
Proof.
  unfold array_get. destruct (i <? 0); [done |].
  apply list_elem_of_lookup_2.
Qed.

(** X29.  [handleKeyDown] never puts the cursor on a cell that does not exist:
    if the cursor is unset or on an existing cell before a key press, so it
    is afterwards. *)
Theorem handleKeyDown_cursor_valid (rowIds : list RowId) (colIds : list string)
    (key : Key) (st : CursorState) :
  (forall c, cursorPosition st = Some c -> cell_exists rowIds colIds c) ->
  forall c', cursorPosition (handleKeyDown rowIds colIds key st) = Some c' ->
             cell_exists rowIds colIds c'.
Proof.
  intros Hvalid c'. unfold handleKeyDown.
  assert (forall i j,
            cursorPosition
              match array_get rowIds i, array_get colIds j with
              | Some r, Some c =>
                  {| cursorPosition := Some {| cp_rowId := r; cp_colId := c |};
                     selected := selected st |}
              | _, _ => st
              end = Some c' -> cell_exists rowIds colIds c') as Hmove.
  { intros i j.
    destruct (array_get rowIds i) as [r |] eqn:Hr; [| by apply Hvalid].
    destruct (array_get colIds j) as [c |] eqn:Hc; [| by apply Hvalid].
    simpl. intros [= <-]. split; simpl; by eapply array_get_elem. }
  destruct (cursorPosition st) as [cur |] eqn:Hcur.
  - destruct (_ || _); [rewrite Hcur; apply Hvalid |].
    destruct key; try apply Hmove.
    + destruct (array_get rowIds _); simpl; rewrite ?Hcur; apply Hvalid.
    + rewrite Hcur. apply Hvalid.
  - destruct (_ && _); [apply Hmove | by rewrite Hcur].
Qed.

Lemma handleKeyDown_cursor_valid_witness :
  cell_exists [RNum 1; RNum 2] ["id"; "age"]%string
              {| cp_rowId := RNum 2; cp_colId := "id" |}.
Proof.
  apply (handleKeyDown_cursor_valid [RNum 1; RNum 2] ["id"; "age"]%string
           ArrowDown
           {| cursorPosition := Some {| cp_rowId := RNum 1; cp_colId := "id" |};
              selected := ∅ |}).
  - intros c [= <-]. split; simpl.
    + apply (list_elem_of_lookup_2 _ 0%nat). reflexivity.
    + apply (list_elem_of_lookup_2 _ 0%nat). reflexivity.
  - by vm_compute.
Defined.

Lemma findIndex_NoDup {A} `{EqDecision A} (l : list A) (i : nat) (x : A) :
  NoDup l -> l !! i = Some x ->
  findIndex (fun y => bool_decide (y = x)) l = Z.of_nat i.
Proof.
  intros Hnd Hi.
  assert (findIndex (fun y => bool_decide (y = x)) l ≠ -1) as Hfound.
  { intros Hnone%findIndex_none.
    pose proof (proj1 (Forall_forall _ _) Hnone x
                  (list_elem_of_lookup_2 _ _ _ Hi)) as Hx.
    simpl in Hx. by rewrite bool_decide_true in Hx. }
  destruct (findIndex_found _ _ Hfound) as (y & Hy & Hpy & _).
  pose proof (findIndex_range (fun y => bool_decide (y = x)) l) as [? | Hr];
    [done |].
  apply bool_decide_eq_true in Hpy. subst y.
  pose proof (NoDup_lookup _ _ _ _ Hnd Hy Hi). lia.
Qed.

Lemma array_get_findIndex (l : list string) (c : string) :
  c ∈ l -> array_get l (findIndex (fun y => bool_decide (y = c)) l) = Some c /\
           findIndex (fun y => bool_decide (y = c)) l ≠ -1.
Proof.
  intros Hin.
  assert (findIndex (fun y => bool_decide (y = c)) l ≠ -1) as Hfound.
  { intros Hnone%findIndex_none.
    pose proof (proj1 (Forall_forall _ _) Hnone c Hin) as Hx.
    simpl in Hx. by rewrite bool_decide_true in Hx. }
  split; [| done].
  destruct (findIndex_found _ _ Hfound) as (y & Hy & Hpy & _).
  pose proof (findIndex_range (fun y => bool_decide (y = c)) l) as [? | Hr];
    [done |].
  apply bool_decide_eq_true in Hpy. subst y. unfold array_get.
  by destruct (Z.ltb_spec (findIndex (fun y => bool_decide (y = c)) l) 0);
    [lia |].
Qed.

(** X30.  With pairwise different row ids, the vertical arrow keys move the
    cursor by one row in the same column and stop at the first and the last
    row; the selection is untouched. *)
Theorem handleKeyDown_vertical (rowIds : list RowId) (colIds : list string)
    (st : CursorState) (i : nat) (r : RowId) (c : string) :
  NoDup rowIds ->
  rowIds !! i = Some r ->
  c ∈ colIds ->
  cursorPosition st = Some {| cp_rowId := r; cp_colId := c |} ->
  let at_row (k : nat) :=
    match rowIds !! k with
    | Some r' => {| cursorPosition := Some {| cp_rowId := r'; cp_colId := c |};
                    selected := selected st |}
    | None => st
    end in
  handleKeyDown rowIds colIds ArrowDown st
    = at_row (Nat.min (length rowIds - 1) (S i)) /\
  handleKeyDown rowIds colIds ArrowUp st = at_row (Nat.pred i).
Proof.
  intros Hnd Hi Hc Hcur. cbv zeta. unfold handleKeyDown. rewrite Hcur. simpl.
  rewrite (findIndex_NoDup rowIds i r Hnd Hi).
  destruct (array_get_findIndex colIds c Hc) as [Hcol Hcne].
  pose proof (lookup_lt_Some _ _ _ Hi) as Hlt.
  destruct (Z.eqb_spec (Z.of_nat i) (-1)); [lia |].
  destruct (Z.eqb_spec (findIndex (fun c0 => bool_decide (c0 = c)) colIds) (-1));
    [done |].
  simpl. rewrite Hcol. unfold array_get. split.
  - destruct (Z.ltb_spec (Z.min (Z.of_nat (length rowIds) - 1) (Z.of_nat i + 1)) 0);
      [lia |].
    by replace (Z.to_nat (Z.min (Z.of_nat (length rowIds) - 1) (Z.of_nat i + 1)))
      with (Nat.min (length rowIds - 1) (S i)) by lia.
  - destruct (Z.ltb_spec (Z.max 0 (Z.of_nat i - 1)) 0); [lia |].
    by replace (Z.to_nat (Z.max 0 (Z.of_nat i - 1))) with (Nat.pred i) by lia.
Qed.

(** On rows 1, 2, 3 with the cursor on the last one: down stays, up goes
    to row 2. *)
Lemma handleKeyDown_vertical_witness :
  let st := {| cursorPosition := Some {| cp_rowId := RNum 3; cp_colId := "age" |};
               selected := ∅ |} in
  handleKeyDown [RNum 1; RNum 2; RNum 3] ["id"; "age"]%string ArrowDown st = st /\
  handleKeyDown [RNum 1; RNum 2; RNum 3] ["id"; "age"]%string ArrowUp st =
    {| cursorPosition := Some {| cp_rowId := RNum 2; cp_colId := "age" |};
       selected := ∅ |}.
Proof.
  apply (handleKeyDown_vertical [RNum 1; RNum 2; RNum 3] ["id"; "age"]%string
           {| cursorPosition := Some {| cp_rowId := RNum 3; cp_colId := "age" |};
              selected := ∅ |} 2%nat (RNum 3) "age").
  - apply (bool_decide_unpack _). by vm_compute.
  - reflexivity.
  - apply (list_elem_of_lookup_2 _ 1%nat). reflexivity.
  - reflexivity.
Defined.

(** Pressing the space bar twice gives the cursor and the selection
    back. *)
Theorem handleKeyDown_space_twice (rowIds : list RowId) (colIds : list string)
    (st : CursorState) :
  handleKeyDown rowIds colIds Space (handleKeyDown rowIds colIds Space st) = st.
Proof.
  destruct st as [cursor sel]. unfold handleKeyDown. simpl.
  destruct cursor as [cur |]; simpl.
  - destruct (_ || _) eqn:Hidx; simpl; [by rewrite Hidx |].
    destruct (array_get rowIds _) as [rowId |] eqn:Hrow; simpl;
      rewrite Hidx, ?Hrow; [| done].
    f_equal. destruct (decide (rowId ∈ sel)) as [Hin | Hin].
    + rewrite (bool_decide_true _ Hin).
      rewrite bool_decide_false by (rewrite elem_of_difference, elem_of_singleton; tauto).
      apply set_eq. intros x. rewrite elem_of_union, elem_of_difference,
        elem_of_singleton.
      destruct (decide (x = rowId)) as [-> | Hne]; tauto.
    + rewrite (bool_decide_false _ Hin).
      rewrite bool_decide_true by (rewrite elem_of_union, elem_of_singleton; tauto).
      apply set_eq. intros x. rewrite elem_of_difference, elem_of_union,
        elem_of_singleton.
      destruct (decide (x = rowId)) as [-> | Hne]; tauto.
  - by destruct (0 <? length rowIds)%nat, (0 <? length colIds)%nat.
Qed.
